(** * Hierarchy reconstruction of the Confluence space exporter

    A shallow embedding of [buildPageTree] (src/index.js, lines 186-249)
    and of the forest walk of [generateHtmlList] (lines 254-267), with the
    properties of the reconstructed page hierarchy.

    JavaScript objects are shared by reference: the same page object sits in
    [pageMap], in [queue] and in the [children] array of every parent that
    lists it.  The embedding therefore keeps an explicit heap of page
    objects; [pageMap], [queue], [children] and the returned root array hold
    references (heap addresses), never copies. *)

From Stdlib Require Import Ascii String.
From stdpp Require Import base option list gmap.

(** ** Data model *)

(** Page identifiers ([page.id]) and heap references to page objects. *)
Abbreviation PageId := nat (only parsing).
Abbreviation ref := nat (only parsing).
Abbreviation Error := string (only parsing).

(** A page summary as delivered by the REST API: [{ id, title }]. *)
Record PageSummary : Type := mkSummary {
  page_id : PageId;
  page_title : string
}.

(** A page object built by [{ ...page, children: [] }]: the summary's fields
    and an array of references to the child page objects. *)
Record PageNode : Type := mkNode {
  node_id : PageId;
  node_title : string;
  node_children : list ref
}.

#[global] Instance PageSummary_eq_dec : EqDecision PageSummary.
Proof. solve_decision. Defined.

#[global] Instance PageNode_eq_dec : EqDecision PageNode.
Proof. solve_decision. Defined.

(** The result of awaiting [fetchChildren(id)]: the promise resolves with an
    array of child summaries or rejects with an error. *)
Inductive fetched : Type :=
  | Resolved (children : list PageSummary)
  | Rejected (e : Error).

(** How a run of the [async] function ends.  [OutOfFuel] only says that the
    iteration budget of the model was used up before the queue drained. *)
Inductive outcome (A : Type) : Type :=
  | Returned (a : A)
  | Thrown (e : Error)
  | OutOfFuel.
Arguments Returned {A} a.
Arguments Thrown {A} e.
Arguments OutOfFuel {A}.

(** A JavaScript [Map] keyed by page id.  Iteration follows insertion order,
    which [buildPageTree] relies on when it walks [pageMap.values()]. *)
Module JsMap.
Definition t (V : Type) : Type := list (PageId * V).

Fixpoint get {V} (m : t V) (k : PageId) : option V :=
  match m with
  | [] => None
  | (k', v) :: m' => if decide (k' = k) then Some v else get m' k
  end.

Definition has {V} (m : t V) (k : PageId) : bool :=
  match get m k with Some _ => true | None => false end.

(** [set] overwrites in place when the key exists and appends otherwise. *)
Fixpoint set {V} (m : t V) (k : PageId) (v : V) : t V :=
  match m with
  | [] => [(k, v)]
  | (k', v') :: m' =>
      if decide (k' = k) then (k, v) :: m' else (k', v') :: set m' k v
  end.

Definition values {V} (m : t V) : list V := m.*2.
End JsMap.

(** The variables of one [buildPageTree] invocation. *)
Record state : Type := mkState {
  heap : list PageNode;            (* the page objects allocated so far *)
  pageMap : JsMap.t ref;           (* page id -> page object *)
  childOfMap : gmap PageId PageId; (* child id -> parent id *)
  queue : list ref                 (* objects awaiting their child fetch *)
}.

Definition dummy_node : PageNode := mkNode 0 EmptyString [].

(** Dereferencing.  Every reference the program holds was returned by an
    allocation (lemma [wf_refs] below), so the default is never read. *)
Definition deref (h : list PageNode) (r : ref) : PageNode :=
  default dummy_node (h !! r).

Definition id_of (h : list PageNode) (r : ref) : PageId := node_id (deref h r).

Definition empty_state : state := mkState [] [] ∅ [].

(** ** buildPageTree *)

(** Lines 193-199: one iteration of the seeding loop. *)
Definition seed_page (st : state) (page : PageSummary) : state :=
  if JsMap.has (pageMap st) (page_id page) then st
  else
    let pageCopy := length (heap st) in
    mkState (heap st ++ [mkNode (page_id page) (page_title page) []])
            (JsMap.set (pageMap st) (page_id page) pageCopy)
            (childOfMap st)
            (queue st ++ [pageCopy]).

(** Lines 213-223: look the child up in [pageMap]; create, register and
    enqueue it when it is new.  In the other branch the assignment
    [childPage.children = childPage.children || []] writes the array back
    onto itself (an array is truthy), so the object is unchanged. *)
Definition resolve_child (st : state) (childData : PageSummary) : ref * state :=
  match JsMap.get (pageMap st) (page_id childData) with
  | Some childPage => (childPage, st)
  | None =>
      let childPage := length (heap st) in
      (childPage,
       mkState (heap st ++ [mkNode (page_id childData) (page_title childData) []])
               (JsMap.set (pageMap st) (page_id childData) childPage)
               (childOfMap st)
               (queue st ++ [childPage]))
  end.

(** Lines 228-230: push unless some entry of [currentPage.children] already
    carries the child's id. *)
Definition push_child (h : list PageNode) (currentPage childPage : ref)
    : list PageNode :=
  let cur := deref h currentPage in
  if existsb (λ c, bool_decide (id_of h c = id_of h childPage)) (node_children cur)
  then h
  else <[currentPage :=
           mkNode (node_id cur) (node_title cur) (node_children cur ++ [childPage])]> h.

(** Lines 211-236: the body of the loop over the fetched children. *)
Definition process_child (currentPage : ref) (st : state)
    (childData : PageSummary) : state :=
  let '(childPage, st1) := resolve_child st childData in
  let h := push_child (heap st1) currentPage childPage in
  mkState h (pageMap st1)
          (<[id_of h childPage := id_of h currentPage]> (childOfMap st1))
          (queue st1).

(** Lines 239-246: the pages nobody claimed as a child, in [pageMap] order. *)
Definition rootPages (st : state) : list ref :=
  filter (λ page, childOfMap st !! id_of (heap st) page = None)
         (JsMap.values (pageMap st)).

(** The forest walk of [generateHtmlList]: every page of the array followed
    by the walk of its [children], cut off below [depth] levels. *)
Fixpoint forest_walk (depth : nat) (h : list PageNode) (pages : list ref)
    : list ref :=
  match depth with
  | O => []
  | S d =>
      flat_map (λ page, page :: forest_walk d h (node_children (deref h page))) pages
  end.

Section Build.
Variable fetchChildren : PageId → fetched.

(** Lines 203-237: the work-queue loop.  [calls] logs the ids passed to
    [fetchChildren], in call order; one unit of fuel pays one iteration. *)
Fixpoint drain (fuel : nat) (st : state) (head : nat) (calls : list PageId)
    : list PageId * outcome state :=
  match queue st !! head with
  | None => (calls, Returned st)
  | Some currentPage =>
      match fuel with
      | O => (calls, OutOfFuel)
      | S fuel' =>
          let pid := id_of (heap st) currentPage in
          match fetchChildren pid with
          | Rejected e => (calls ++ [pid], Thrown e)
          | Resolved children =>
              drain fuel' (foldl (process_child currentPage) st children)
                    (S head) (calls ++ [pid])
          end
      end
  end.

(** The whole function: the call log, and the returned root array together
    with the final variables (the heap gives the roots their subtrees). *)
Definition buildPageTree (fuel : nat) (initialPages : list PageSummary)
    : list PageId * outcome (list ref * state) :=
  match drain fuel (foldl seed_page empty_state initialPages) 0 [] with
  | (calls, Returned st) => (calls, Returned (rootPages st, st))
  | (calls, Thrown e) => (calls, Thrown e)
  | (calls, OutOfFuel) => (calls, OutOfFuel)
  end.
End Build.

(** ** Views of the result *)

(** The children of a fetch that resolved; a rejected fetch shows none. *)
Definition kids (fetchChildren : PageId → fetched) (p : PageId) : list PageSummary :=
  match fetchChildren p with Resolved l => l | Rejected _ => [] end.

(** All summaries the build has seen, in the order it saw them. *)
Definition observed (fetchChildren : PageId → fetched)
    (initialPages : list PageSummary) (calls : list PageId) : list PageSummary :=
  initialPages ++ concat (map (kids fetchChildren) calls).

Definition summary_of (nd : PageNode) : PageSummary :=
  mkSummary (node_id nd) (node_title nd).

(** The pages of the returned forest, descendants included. *)
Definition forest_nodes (h : list PageNode) (roots : list ref) : list ref :=
  remove_dups (forest_walk (length h) h roots).

(** How often a page with the given id is met when walking the forest. *)
Definition occurrences (depth : nat) (h : list PageNode) (roots : list ref)
    (i : PageId) : nat :=
  length (filter (λ r, id_of h r = i) (forest_walk depth h roots)).

(** ** Scenarios of the specification *)

Definition fetch_of (table : list (PageId * list PageSummary)) : PageId → fetched :=
  λ p, Resolved (default [] (JsMap.get table p)).

Definition A1 := mkSummary 1 "A"%string.
Definition B2 := mkSummary 2 "B"%string.
Definition C3 := mkSummary 3 "C"%string.

Definition scenario4 := buildPageTree (fetch_of [(1, [C3]); (2, [C3])]) 10 [A1; B2].

(** ** Invariants of the build *)

(** The registry of a heap: object [i] under the id it carries. *)
Definition registry (h : list PageNode) : JsMap.t ref :=
  imap (λ i nd, (node_id nd, i)) h.

(** The three containers describe the same objects: the queue lists the heap
    addresses in allocation order, [pageMap] files each object under its id,
    no two objects carry one id, and no reference dangles. *)
Record wf (st : state) : Prop := mkWf {
  wf_queue : queue st = seq 0 (length (heap st));
  wf_pageMap : pageMap st = registry (heap st);
  wf_ids : NoDup (map node_id (heap st));
  wf_refs : ∀ nd c, nd ∈ heap st → c ∈ node_children nd → c < length (heap st)
}.

(** The object that lines 195-197 and 217-219 allocate, register and
    enqueue for a summary whose id is not in [pageMap] yet. *)
Definition alloc_page (st : state) (s : PageSummary) : state :=
  mkState (heap st ++ [mkNode (page_id s) (page_title s) []])
          (JsMap.set (pageMap st) (page_id s) (length (heap st)))
          (childOfMap st)
          (queue st ++ [length (heap st)]).

(** The first summary of every id, in order of first appearance. *)
Definition register_summary (acc : list PageSummary) (s : PageSummary)
    : list PageSummary :=
  if bool_decide (page_id s ∈ map page_id acc) then acc else acc ++ [s].

Definition first_seen (obs : list PageSummary) : list PageSummary :=
  foldl register_summary [] obs.

(** The ids of a list without repetitions, in order of first appearance. *)
Definition add_id (acc : list PageId) (i : PageId) : list PageId :=
  if bool_decide (i ∈ acc) then acc else acc ++ [i].

Definition distinct (l : list PageId) : list PageId := foldl add_id [] l.

(** The ids found in a page object's [children] array. *)
Definition child_ids (h : list PageNode) (nd : PageNode) : list PageId :=
  map (id_of h) (node_children nd).

(** [results] lists the children processed so far, one list per call in call
    order.  [last_parent ids results c o] says that [o] is what
    [childOfMap.get(c)] must be: the id of the last call that listed [c]. *)
Definition last_parent (ids : list PageId) (results : list (list PageSummary))
    (c : PageId) (o : option PageId) : Prop :=
  match o with
  | None => ∀ l, l ∈ results → c ∉ map page_id l
  | Some p =>
      ∃ j l, ids !! j = Some p ∧ results !! j = Some l ∧ c ∈ map page_id l ∧
             ∀ j' l', j < j' → results !! j' = Some l' → c ∉ map page_id l'
  end.

(** The call for page [p] resolved with the children [l]. *)
Definition resolved_by (f : PageId → fetched) (p : PageId)
    (l : list PageSummary) : Prop :=
  f p = Resolved l.

(** The invariant that links the variables to the summaries seen so far. *)
Record inv (initialPages : list PageSummary) (st : state)
    (results : list (list PageSummary)) : Prop := mkInv {
  inv_wf : wf st;
  inv_len : length results ≤ length (heap st);
  inv_nodes :
    map summary_of (heap st) = first_seen (initialPages ++ concat results);
  inv_children : ∀ i nd, heap st !! i = Some nd →
    child_ids (heap st) nd = distinct (map page_id (default [] (results !! i)));
  inv_parent : ∀ c,
    last_parent (map node_id (heap st)) results c (childOfMap st !! c)
}.

(** The value a run returned, if it returned. *)
Definition result_of (run : list PageId * outcome (list ref * state))
    : list ref * state :=
  match run.2 with Returned a => a | _ => ([], empty_state) end.

(** Scenario with repeated ids that carry different titles. *)
Definition retitled_init : list PageSummary :=
  [mkSummary 1 "A"%string; mkSummary 1 "A again"%string; mkSummary 2 "B"%string].
Definition retitled_fetch : PageId → fetched :=
  fetch_of [(1, [mkSummary 2 "B as child"%string; mkSummary 3 "C"%string]);
            (3, [mkSummary 1 "A as grandchild"%string])].
Definition retitled_run := buildPageTree retitled_fetch 10 retitled_init.

(** Scenario 2: a listed page that turns out to be a child. *)
Definition scenario2 := buildPageTree (fetch_of [(1, [B2])]) 10 [A1; B2].

(** Scenario 3: the same child listed twice by one parent. *)
Definition scenario3 := buildPageTree (fetch_of [(1, [B2; B2])]) 10 [A1].

(** A page that lists itself as its child. *)
Definition self_child := buildPageTree (fetch_of [(1, [A1])]) 10 [A1].

(** The fetch for page 2 fails. *)
Definition failing_fetch : PageId → fetched :=
  λ p, if decide (p = 2) then Rejected "boom"%string
       else Resolved (default [] (JsMap.get [(1, [C3])] p)).
Definition failing_run := buildPageTree failing_fetch 10 [A1; B2].

(** Scenario 2 against a remote that differs on a page never asked for. *)
Definition scenario2_other :=
  buildPageTree (fetch_of [(1, [B2]); (7, [C3])]) 10 [A1; B2].

(** The child data seen by the calls of a build has no cycle: some depth
    function grows along every edge from a called page to a listed child. *)
Definition acyclic_on (f : PageId → fetched) (calls : list PageId) : Prop :=
  ∃ rank : PageId → nat,
    ∀ p s, p ∈ calls → s ∈ kids f p → rank p < rank (page_id s).

(** A remote whose pages never end: page [p] lists page [p + 1]. *)
Definition endless_fetch : PageId → fetched :=
  λ p, Resolved [mkSummary (S p) EmptyString].

(** ** Names, links and the index (src/index.js, lines 40-51 and 253-267) *)

(** JavaScript strings are modelled by [string]; the functions below only
    look for ASCII characters, so it does not matter which encoding of the
    other characters the bytes stand for. *)
Infix "+++" := String.append (at level 60, right associativity).

Definition dquote : ascii := "034"%char.

(** The character class of line 41: backslash, slash, colon, double quote,
    star, question mark, less-than, greater-than and bar. *)
Definition forbidden (c : ascii) : bool :=
  existsb (Ascii.eqb c)
    ["\"%char; "/"%char; ":"%char; dquote; "*"%char; "?"%char; "<"%char;
     ">"%char; "|"%char].

(** [str.replace(/[...]+/g, "_")]: scanning from the left, every maximal run
    of forbidden characters becomes one underscore.  [in_run] says that the
    previous character was forbidden. *)
Fixpoint sanitize_from (in_run : bool) (str : string) : string :=
  match str with
  | EmptyString => EmptyString
  | String c rest =>
      if forbidden c then
        if in_run then sanitize_from true rest
        else String "_"%char (sanitize_from true rest)
      else String c (sanitize_from false rest)
  end.

(** Line 41. *)
Definition sanitize (str : string) : string := sanitize_from false str.

(** [String.prototype.split] with a one-character separator: the pieces
    between the separators, empty pieces included; never an empty array. *)
Fixpoint split (sep : ascii) (str : string) : list string :=
  match str with
  | EmptyString => [EmptyString]
  | String c rest =>
      if Ascii.eqb c sep then EmptyString :: split sep rest
      else match split sep rest with
           | [] => [String c EmptyString]
           | piece :: pieces => String c piece :: pieces
           end
  end.

(** Lines 43-51.  [decodeURIComponent] is the built-in of the language; it
    is a parameter that answers [None] where the built-in throws.  Reading
    past the end of an array gives [undefined], and calling [split] on it
    throws, which the [catch] turns into the fallback name; the warning
    written to the console is left out. *)
Definition extractFilename (decodeURIComponent : string → option string)
    (url : string) : string :=
  let fallback := "unknown.png"%string in
  let parts := split "/"%char url in
  match last parts with
  | None => fallback
  | Some piece =>
      match decodeURIComponent (default "undefined"%string
                                  (head (split "?"%char piece))) with
      | Some name => name
      | None => fallback
      end
  end.

(** Line 258: the link of a page in the index. *)
Definition link_of (title : string) : string :=
  "./"%string +++ title +++ "/"%string +++ title +++ ".html"%string.

(** Line 259: the opening of a page's list item, with the raw title. *)
Definition item_open (nd : PageNode) : string :=
  "<li><a href="%string +++ String dquote (link_of (sanitize (node_title nd)))
  +++ String dquote ">"%string +++ node_title nd +++ "</a>"%string.

(** Lines 254-267.  The recursion follows the [children] arrays; [depth] is
    the number of nested calls the stack still has room for, and [None]
    stands for the stack overflow of a recursion that does not end. *)
Fixpoint generateHtmlList (depth : nat) (h : list PageNode) (pages : list ref)
    : option string :=
  let item (acc : option string) (page : ref) : option string :=
    match acc with
    | None => None
    | Some html =>
        let nd := deref h page in
        let html := html +++ item_open nd in
        match node_children nd with
        | [] => Some (html +++ "</li>"%string)
        | _ :: _ =>
            match depth with
            | O => None
            | S d =>
                match generateHtmlList d h (node_children nd) with
                | None => None
                | Some sub => Some ((html +++ sub) +++ "</li>"%string)
                end
            end
        end
    end in
  match foldl item (Some "<ul>"%string) pages with
  | None => None
  | Some html => Some (html +++ "</ul>"%string)
  end.

(** Views of strings used to state what these functions do. *)
Definition chars (str : string) : list ascii := list_ascii_of_string str.

(** No character of the string is in the forbidden class. *)
Definition clean (str : string) : Prop :=
  Forall (λ c, forbidden c = false) (chars str).

(** A non-empty string of forbidden characters only. *)
Definition forbidden_run (str : string) : Prop :=
  str ≠ EmptyString ∧ Forall (λ c, forbidden c = true) (chars str).

(** The character does not occur in the string. *)
Definition lacks (c : ascii) (str : string) : Prop := c ∉ chars str.

(** [part] occurs somewhere inside [whole]. *)
Definition contains (whole part : string) : Prop :=
  ∃ before after, whole = before +++ part +++ after.

(** Whether the scan of line 41 is inside a run after reading [str]. *)
Fixpoint run_after (in_run : bool) (str : string) : bool :=
  match str with
  | EmptyString => in_run
  | String c rest => run_after (forbidden c) rest
  end.

(** The list item of one page as lines 257-263 write it. *)
Definition item_html (depth : nat) (h : list PageNode) (page : ref)
    : option string :=
  let nd := deref h page in
  match node_children nd with
  | [] => Some (item_open nd +++ "</li>"%string)
  | _ :: _ =>
      match depth with
      | O => None
      | S d =>
          match generateHtmlList d h (node_children nd) with
          | None => None
          | Some sub => Some (item_open nd +++ sub +++ "</li>"%string)
          end
      end
  end.

(** A build whose second page lists itself below a root. *)
Definition looping_run := buildPageTree (fetch_of [(1, [B2]); (2, [B2])]) 10 [A1].

(** Lines 256-264: one pass through the body of the loop. *)
Definition item_step (depth : nat) (h : list PageNode) (acc : option string)
    (page : ref) : option string :=
  match acc with
  | None => None
  | Some html =>
      let nd := deref h page in
      let html := html +++ item_open nd in
      match node_children nd with
      | [] => Some (html +++ "</li>"%string)
      | _ :: _ =>
          match depth with
          | O => None
          | S d =>
              match generateHtmlList d h (node_children nd) with
              | None => None
              | Some sub => Some ((html +++ sub) +++ "</li>"%string)
              end
          end
      end
  end.

(** The list items of an array of pages, one after the other. *)
Fixpoint items_html (depth : nat) (h : list PageNode) (pages : list ref)
    : option string :=
  match pages with
  | [] => Some EmptyString
  | page :: rest =>
      match item_html depth h page, items_html depth h rest with
      | Some it, Some more => Some (it +++ more)
      | _, _ => None
      end
  end.

(** A page whose title needs sanitizing, above a page whose title is markup. *)
Definition titled_heap : list PageNode :=
  [mkNode 1 "A/B"%string [1]; mkNode 2 "<b>"%string []].
Definition titled_html : string :=
  default EmptyString (generateHtmlList 2 titled_heap [0]).

(** No id is listed as a child by two different calls. *)
Definition single_parent (f : PageId → fetched) (calls : list PageId) : Prop :=
  ∀ p1 p2 c, p1 ∈ calls → p2 ∈ calls →
             c ∈ map page_id (kids f p1) → c ∈ map page_id (kids f p2) →
             p1 = p2.

(** Scenario 3 with a second child between the two listings of the first. *)
Definition scenario3_mixed :=
  buildPageTree (fetch_of [(1, [B2; C3; B2])]) 10 [A1].

(** * Properties *)

(** ** The JavaScript map *)

Lemma JsMap_get_elem {V} (m : JsMap.t V) k v :
  JsMap.get m k = Some v → (k, v) ∈ m.
Proof.
  induction m as [|[k' v'] m IH]; simpl; [done|].
  case_decide; intros E; simplify_eq; [left | right; auto].
Qed.

Lemma JsMap_get_None {V} (m : JsMap.t V) k :
  JsMap.get m k = None ↔ k ∉ m.*1.
Proof.
  induction m as [|[k' v'] m IH]; simpl.
  - split; [intros _; apply not_elem_of_nil | done].
  - rewrite not_elem_of_cons. case_decide; naive_solver.
Qed.

Lemma JsMap_set_fresh {V} (m : JsMap.t V) k v :
  JsMap.get m k = None → JsMap.set m k v = m ++ [(k, v)].
Proof.
  induction m as [|[k' v'] m IH]; simpl; [done|].
  case_decide; [done|]. intros E. by rewrite IH.
Qed.

(** ** Well-formed states *)

Lemma registry_app h nd :
  registry (h ++ [nd]) = registry h ++ [(node_id nd, length h)].
Proof.
  unfold registry. rewrite imap_app. simpl. by rewrite Nat.add_0_r.
Qed.

Lemma registry_keys h : (registry h).*1 = map node_id h.
Proof.
  unfold registry. rewrite fmap_imap. 
  induction h as [|nd h IH] using rev_ind; [done|].
  rewrite imap_app, map_app, IH. done.
Qed.

Lemma registry_values h : JsMap.values (registry h) = seq 0 (length h).
Proof.
  unfold JsMap.values, registry.
  induction h as [|nd h IH] using rev_ind; [done|].
  rewrite imap_app, fmap_app, IH, length_app, seq_app. simpl.
  by rewrite Nat.add_0_r.
Qed.

Lemma registry_elem h k r :
  (k, r) ∈ registry h ↔ ∃ nd, h !! r = Some nd ∧ node_id nd = k.
Proof.
  unfold registry. rewrite elem_of_lookup_imap. naive_solver.
Qed.

Lemma deref_lookup h r nd : h !! r = Some nd → deref h r = nd.
Proof. unfold deref. by intros ->. Qed.

Lemma id_of_lookup h r nd : h !! r = Some nd → id_of h r = node_id nd.
Proof. unfold id_of. by intros ->%deref_lookup. Qed.

Lemma ids_lookup h r nd :
  h !! r = Some nd → map node_id h !! r = Some (node_id nd).
Proof. intros E. change (map node_id h) with (node_id <$> h). by rewrite list_lookup_fmap, E. Qed.

(** Looking an id up in the registry finds the one object that carries it. *)
Lemma registry_get h k r :
  NoDup (map node_id h) →
  JsMap.get (registry h) k = Some r ↔ ∃ nd, h !! r = Some nd ∧ node_id nd = k.
Proof.
  intros ND. split.
  - intros E%JsMap_get_elem. by apply registry_elem.
  - intros (nd & Hr & <-).
    destruct (JsMap.get (registry h) (node_id nd)) as [r'|] eqn:E.
    + apply JsMap_get_elem, registry_elem in E as (nd' & Hr' & Hid).
      f_equal. eapply NoDup_lookup; [exact ND| |].
      * apply ids_lookup in Hr'. rewrite Hid in Hr'. exact Hr'.
      * by apply ids_lookup.
    + apply JsMap_get_None in E. rewrite registry_keys in E.
      destruct E. apply list_elem_of_lookup. exists r. by apply ids_lookup.
Qed.

Lemma registry_get_None h k :
  JsMap.get (registry h) k = None ↔ k ∉ map node_id h.
Proof. by rewrite JsMap_get_None, registry_keys. Qed.

Lemma registry_ids h : registry h = imap (λ i k, (k, i)) (map node_id h).
Proof. unfold registry. change (map node_id h) with (node_id <$> h). by rewrite imap_fmap. Qed.

Lemma summary_ids h : map page_id (map summary_of h) = map node_id h.
Proof. rewrite map_map. done. Qed.

Lemma id_of_ids h r : id_of h r = default 0 (map node_id h !! r).
Proof.
  unfold id_of, deref. change (map node_id h) with (node_id <$> h).
  rewrite list_lookup_fmap. by destruct (h !! r).
Qed.

Lemma id_of_app h extra r : r < length h → id_of (h ++ extra) r = id_of h r.
Proof. intros Hr. unfold id_of, deref. by rewrite lookup_app_l. Qed.

Lemma wf_alloc st s :
  wf st → page_id s ∉ map node_id (heap st) → wf (alloc_page st s).
Proof.
  intros [Hq Hm Hi Hr] Hs. split; simpl.
  - rewrite length_app, seq_app, Hq. done.
  - rewrite registry_app, Hm. simpl.
    apply JsMap_set_fresh. by apply registry_get_None.
  - rewrite map_app. simpl. apply NoDup_app. split; [done|]. split.
    + intros x Hx ->%list_elem_of_singleton. done.
    + apply NoDup_singleton.
  - intros nd c [Hnd | ->%list_elem_of_singleton]%elem_of_app Hc.
    + rewrite length_app. specialize (Hr nd c Hnd Hc). lia.
    + simpl in Hc. by apply elem_of_nil in Hc.
Qed.

Lemma summary_alloc st s :
  map summary_of (heap (alloc_page st s)) = map summary_of (heap st) ++ [s].
Proof. simpl. rewrite map_app. by destruct s. Qed.

(** What the lookup-or-create step of lines 213-223 achieves. *)
Lemma resolve_child_spec st s r st1 :
  wf st → resolve_child st s = (r, st1) →
  wf st1 ∧
  (st1 = st ∨ st1 = alloc_page st s) ∧
  map summary_of (heap st1) = register_summary (map summary_of (heap st)) s ∧
  (∃ nd, heap st1 !! r = Some nd ∧ node_id nd = page_id s).
Proof.
  intros Hwf. unfold resolve_child.
  destruct (JsMap.get (pageMap st) (page_id s)) as [r'|] eqn:E;
    intros [= <- <-]; rewrite (wf_pageMap _ Hwf) in E.
  - apply registry_get in E; [|by apply wf_ids].
    split; [done|]. split; [by left|]. split; [|done].
    unfold register_summary. rewrite summary_ids, bool_decide_true; [done|].
    destruct E as (nd & Hnd & <-). apply list_elem_of_lookup.
    exists r'. by apply ids_lookup.
  - apply registry_get_None in E.
    split; [by apply wf_alloc|]. split; [by right|]. split.
    + unfold register_summary. rewrite summary_ids, bool_decide_false by done.
      apply summary_alloc.
    + eexists. simpl. split; [|shelve]. by rewrite lookup_app_r, Nat.sub_diag.
      Unshelve. done.
Qed.

Lemma seed_page_spec st s :
  wf st →
  wf (seed_page st s) ∧
  (seed_page st s = st ∨ seed_page st s = alloc_page st s) ∧
  map summary_of (heap (seed_page st s))
    = register_summary (map summary_of (heap st)) s.
Proof.
  intros Hwf.
  destruct (resolve_child st s) as [r st1] eqn:E.
  assert (seed_page st s = st1) as ->.
  { unfold seed_page, JsMap.has. unfold resolve_child in E.
    destruct (JsMap.get (pageMap st) (page_id s)); by injection E. }
  destruct (resolve_child_spec _ _ _ _ Hwf E) as (? & ? & ? & ?). done.
Qed.

(** ** Pushing a child *)

Lemma existsb_child_ids h r cs :
  existsb (λ c, bool_decide (id_of h c = id_of h r)) cs
  = bool_decide (id_of h r ∈ map (id_of h) cs).
Proof.
  induction cs as [|c cs IH]; simpl; [done|].
  rewrite IH. destruct (decide (id_of h c = id_of h r)) as [E|E].
  - rewrite (bool_decide_true (id_of h c = _)) by done. simpl.
    symmetry. apply bool_decide_true. rewrite E. left.
  - rewrite (bool_decide_false (id_of h c = _)) by done. simpl.
    apply bool_decide_ext. rewrite elem_of_cons. naive_solver.
Qed.

Lemma push_child_length h cur r : length (push_child h cur r) = length h.
Proof. unfold push_child. case_match; [done|]. apply length_insert. Qed.

Lemma push_child_other h cur r x :
  x ≠ cur → push_child h cur r !! x = h !! x.
Proof.
  intros Hx. unfold push_child. case_match; [done|].
  by apply list_lookup_insert_ne.
Qed.

Lemma push_child_cur h cur r nd :
  h !! cur = Some nd →
  ∃ nd', push_child h cur r !! cur = Some nd' ∧
         node_id nd' = node_id nd ∧ node_title nd' = node_title nd ∧
         node_children nd'
         = if bool_decide (id_of h r ∈ child_ids h nd)
           then node_children nd else node_children nd ++ [r].
Proof.
  intros Hcur. unfold push_child, child_ids.
  rewrite existsb_child_ids, (deref_lookup _ _ _ Hcur).
  case_bool_decide.
  - exists nd. done.
  - eexists. split.
    + apply list_lookup_insert_eq. by eapply lookup_lt_Some.
    + done.
Qed.

Lemma push_child_summary h cur r :
  map summary_of (push_child h cur r) = map summary_of h.
Proof.
  apply list_eq. intros x.
  change (map summary_of ?l) with (summary_of <$> l).
  rewrite !list_lookup_fmap.
  destruct (decide (x = cur)) as [->|Hx]; [|by rewrite push_child_other].
  destruct (h !! cur) as [nd|] eqn:E.
  - destruct (push_child_cur h cur r nd E) as (nd' & -> & Hi & Ht & _).
    simpl. unfold summary_of. by rewrite Hi, Ht.
  - assert (push_child h cur r !! cur = None) as ->; [|done].
    apply lookup_ge_None. rewrite push_child_length. by apply lookup_ge_None.
Qed.

Lemma push_child_ids h cur r :
  map node_id (push_child h cur r) = map node_id h.
Proof. by rewrite <-!summary_ids, push_child_summary. Qed.

Lemma id_of_push h cur r x : id_of (push_child h cur r) x = id_of h x.
Proof. by rewrite !id_of_ids, push_child_ids. Qed.

Lemma add_id_snoc l i : distinct (l ++ [i]) = add_id (distinct l) i.
Proof. unfold distinct. by rewrite foldl_app. Qed.

Lemma first_seen_snoc obs s :
  first_seen (obs ++ [s]) = register_summary (first_seen obs) s.
Proof. unfold first_seen. by rewrite foldl_app. Qed.

Lemma child_ids_ext h h' nd :
  (∀ c, c ∈ node_children nd → id_of h' c = id_of h c) →
  child_ids h' nd = child_ids h nd.
Proof.
  intros H. unfold child_ids. apply map_ext_in. intros c Hc.
  apply H. by apply list_elem_of_In.
Qed.

Lemma wf_push st cur r m :
  wf st → r < length (heap st) →
  wf (mkState (push_child (heap st) cur r) (pageMap st) m (queue st)).
Proof.
  intros [Hq Hm Hi Hr] Hlt. split; simpl.
  - by rewrite push_child_length.
  - by rewrite Hm, !registry_ids, push_child_ids.
  - by rewrite push_child_ids.
  - rewrite push_child_length.
    intros nd c [x Hx]%list_elem_of_lookup Hc.
    destruct (decide (x = cur)) as [->|Hne].
    + destruct (heap st !! cur) as [nd0|] eqn:E.
      * destruct (push_child_cur _ _ r _ E) as (nd' & Hnd' & _ & _ & Hcs).
        rewrite Hx in Hnd'. injection Hnd' as <-. rewrite Hcs in Hc.
        assert (nd0 ∈ heap st) by (apply list_elem_of_lookup; eauto).
        case_bool_decide; [by eapply Hr|].
        apply elem_of_app in Hc as [Hc | ->%list_elem_of_singleton]; [|done].
        by eapply Hr.
      * apply lookup_lt_Some in Hx. rewrite push_child_length in Hx.
        apply lookup_ge_None in E. lia.
    + rewrite push_child_other in Hx by done.
      eapply Hr; [|done]. apply list_elem_of_lookup. eauto.
Qed.

Lemma last_parent_step (ids ids' : list PageId) R done s p
    (m : gmap PageId PageId) :
  (∀ c, last_parent ids (R ++ [done]) c (m !! c)) →
  ids !! length R = Some p →
  ids `prefix_of` ids' →
  ∀ c, last_parent ids' (R ++ [done ++ [s]]) c (<[page_id s := p]> m !! c).
Proof.
  intros Hold Hp Hpre c.
  destruct (decide (c = page_id s)) as [->|Hne].
  - rewrite lookup_insert_eq. simpl.
    exists (length R), (done ++ [s]). split_and!.
    + by eapply prefix_lookup_Some.
    + by rewrite lookup_app_r, Nat.sub_diag.
    + rewrite map_app. apply elem_of_app. right. simpl. left.
    + intros j' l' Hj Hl. apply lookup_lt_Some in Hl.
      rewrite length_app in Hl. simpl in Hl. lia.
  - rewrite lookup_insert_ne by done.
    specialize (Hold c). destruct (m !! c) as [q|]; simpl in *.
    + destruct Hold as (j & l & Hj & Hl & Hc & Hlater).
      apply lookup_snoc_Some in Hl as [[Hlt Hl] | [-> <-]].
      * exists j, l. split_and!; [by eapply prefix_lookup_Some| |done|].
        { by rewrite lookup_app_l. }
        intros j' l' Hjj' Hl'.
        apply lookup_snoc_Some in Hl' as [[Hlt' Hl'] | [-> <-]].
        -- eapply Hlater; [done|]. by rewrite lookup_app_l.
        -- rewrite map_app, elem_of_app. simpl.
           intros [Hin | Hin%list_elem_of_singleton]; [|done].
           eapply (Hlater (length R) done); [done| |done].
           by rewrite lookup_app_r, Nat.sub_diag.
      * exists (length R), (done ++ [s]). split_and!.
        -- by eapply prefix_lookup_Some.
        -- by rewrite lookup_app_r, Nat.sub_diag.
        -- rewrite map_app. apply elem_of_app. by left.
        -- intros j' l' Hj' Hl'. apply lookup_lt_Some in Hl'.
           rewrite length_app in Hl'. simpl in Hl'. lia.
    + intros l [Hl | ->%list_elem_of_singleton]%elem_of_app.
      * apply Hold. apply elem_of_app. by left.
      * rewrite map_app, elem_of_app. simpl.
        intros [Hin | Hin%list_elem_of_singleton]; [|done].
        eapply (Hold done); [|done]. apply elem_of_app. right. left.
Qed.

Lemma lookup_snoc_ne {A} (R : list A) x y i :
  i ≠ length R → (R ++ [x]) !! i = (R ++ [y]) !! i.
Proof.
  intros Hne. destruct (decide (i < length R)).
  - by rewrite !lookup_app_l.
  - rewrite !lookup_ge_None_2; [done| |]; rewrite length_app; simpl; lia.
Qed.

Lemma alloc_or_same st st1 s :
  st1 = st ∨ st1 = alloc_page st s →
  ∃ extra, heap st1 = heap st ++ extra ∧ childOfMap st1 = childOfMap st ∧
           ∀ nd, nd ∈ extra → node_children nd = [].
Proof.
  intros [-> | ->].
  - exists []. rewrite app_nil_r. split_and!; [done..|]. by intros nd ?%elem_of_nil.
  - eexists. split_and!; [done..|]. by intros nd ->%list_elem_of_singleton.
Qed.

Lemma child_ids_grow st extra cur r nd :
  wf st → nd ∈ heap st →
  child_ids (push_child (heap st ++ extra) cur r) nd = child_ids (heap st) nd.
Proof.
  intros Hwf Hnd. apply child_ids_ext. intros c Hc.
  rewrite id_of_push. apply id_of_app. by eapply wf_refs.
Qed.

(** One pass through the body of the loop over the fetched children keeps
    the invariant, with the processed summary added to the current call. *)
Lemma inv_process_child init st R done s :
  inv init st (R ++ [done]) →
  inv init (process_child (length R) st s) (R ++ [done ++ [s]]).
Proof.
  intros [Hwf Hlen Hnodes Hch Hpar].
  rewrite length_app in Hlen; simpl in Hlen.
  destruct (resolve_child st s) as [r st1] eqn:E.
  destruct (resolve_child_spec _ _ _ _ Hwf E)
    as (Hwf1 & Hst1 & Hsum1 & ndr & Hr & Hidr).
  destruct (alloc_or_same _ _ _ Hst1) as (extra & Hheap & Hmap & Hextra).
  unfold process_child. rewrite E.
  destruct (lookup_lt_is_Some_2 (heap st) (length R) ltac:(lia)) as [nd0 Hcur].
  assert (heap st1 !! length R = Some nd0) as Hcur1.
  { rewrite Hheap. by apply lookup_app_l_Some. }
  destruct (push_child_cur _ _ r _ Hcur1) as (nd0' & Hcur2 & Hid0 & _ & Hcs).
  assert (id_of (heap st1) r = page_id s) as Hrid by (by erewrite id_of_lookup).
  rewrite !id_of_push, Hrid, (id_of_lookup _ _ _ Hcur1).
  split; simpl.
  - apply wf_push; [done|]. by eapply lookup_lt_Some.
  - rewrite length_app, push_child_length, Hheap, length_app. simpl. lia.
  - rewrite push_child_summary, Hsum1, Hnodes, <-first_seen_snoc. f_equal.
    rewrite !concat_app. simpl. by rewrite !app_nil_r, !app_assoc.
  - intros i nd Hi. destruct (decide (i = length R)) as [->|Hne].
    + rewrite Hcur2 in Hi. injection Hi as <-.
      rewrite lookup_app_r, Nat.sub_diag by done.
      change (default [] ([done ++ [s]] !! 0)) with (done ++ [s]).
      rewrite map_app. change (map page_id [s]) with [page_id s].
      rewrite add_id_snoc.
      specialize (Hch _ _ Hcur). rewrite lookup_app_r, Nat.sub_diag in Hch by done.
      change (default [] ([done] !! 0)) with done in Hch. rewrite <-Hch.
      assert (nd0 ∈ heap st) as Hin by (apply list_elem_of_lookup; eauto).
      assert (child_ids (heap st1) nd0 = child_ids (heap st) nd0) as Hsame.
      { apply child_ids_ext. intros c Hc. rewrite Hheap.
        apply id_of_app. by eapply wf_refs. }
      rewrite Hrid, Hsame in Hcs.
      unfold add_id, child_ids at 1. rewrite Hcs. case_bool_decide.
      * rewrite <-Hsame. apply map_ext. intros c. apply id_of_push.
      * rewrite map_app. simpl. rewrite id_of_push, Hrid. f_equal.
        rewrite <-Hsame. apply map_ext. intros c. apply id_of_push.
    + rewrite push_child_other in Hi by done.
      rewrite (lookup_snoc_ne R _ done) by done.
      rewrite Hheap in Hi. apply lookup_app_Some in Hi as [Hi | [Hge Hi]].
      * rewrite Hheap, child_ids_grow; [by apply Hch|done|].
        apply list_elem_of_lookup. eauto.
      * unfold child_ids. rewrite (Hextra nd) by (apply list_elem_of_lookup; eauto).
        rewrite lookup_ge_None_2; [done|]. rewrite length_app. simpl. lia.
  - rewrite push_child_ids, Hmap.
    apply (last_parent_step (map node_id (heap st))); [done| |].
    + by apply ids_lookup.
    + rewrite Hheap, map_app. by apply prefix_app_r.
Qed.

Lemma ids_process_child cur st s :
  wf st →
  map node_id (heap st) `prefix_of` map node_id (heap (process_child cur st s)).
Proof.
  intros Hwf. unfold process_child.
  destruct (resolve_child st s) as [r st1] eqn:E.
  destruct (resolve_child_spec _ _ _ _ Hwf E) as (_ & Hst1 & _).
  destruct (alloc_or_same _ _ _ Hst1) as (extra & Hheap & _).
  simpl. rewrite push_child_ids, Hheap, map_app. by apply prefix_app_r.
Qed.

(** The whole loop over the children of one call. *)
Lemma inv_process_children init l : ∀ st R done,
  inv init st (R ++ [done]) →
  inv init (foldl (process_child (length R)) st l) (R ++ [done ++ l]) ∧
  map node_id (heap st)
    `prefix_of` map node_id (heap (foldl (process_child (length R)) st l)).
Proof.
  induction l as [|s l IH]; intros st R done Hinv; simpl.
  - by rewrite app_nil_r.
  - pose proof (ids_process_child (length R) st s (inv_wf _ _ _ Hinv)) as Hpre.
    apply (inv_process_child _ _ _ _ s) in Hinv.
    destruct (IH _ _ _ Hinv) as [Hinv' Hpre'].
    rewrite <-app_assoc in Hinv'. split; [done|]. by etrans.
Qed.

(** Dequeuing a page opens its (still empty) list of processed children. *)
Lemma inv_open init st R :
  inv init st R → length R < length (heap st) → inv init st (R ++ [[]]).
Proof.
  intros [Hwf Hlen Hnodes Hch Hpar] Hlt. split.
  - done.
  - rewrite length_app. simpl. lia.
  - rewrite concat_app. simpl. by rewrite !app_nil_r.
  - intros i nd Hi. rewrite (Hch i nd Hi). do 2 f_equal.
    destruct (decide (i < length R)); [by rewrite lookup_app_l|].
    rewrite (lookup_ge_None_2 R) by lia.
    by destruct ((R ++ [[]]) !! i) as [l|] eqn:E;
      [apply lookup_snoc_Some in E as [[? ?] | [? <-]]; [lia|]|].
  - intros c. specialize (Hpar c).
    destruct (childOfMap st !! c) as [p|]; simpl in *.
    + destruct Hpar as (j & l & Hj & Hl & Hc & Hlater).
      exists j, l. split_and!; [done| |done|].
      * apply lookup_app_l_Some. done.
      * intros j' l' Hjj' [[? ?] | [? <-]]%lookup_snoc_Some; [by eapply Hlater|].
        apply not_elem_of_nil.
    + intros l [Hl | ->%list_elem_of_singleton]%elem_of_app; [by apply Hpar|].
      apply not_elem_of_nil.
Qed.

(** Seeding (lines 192-199). *)
Lemma inv_seed init : inv init (foldl seed_page empty_state init) [].
Proof.
  induction init as [|s init IH] using rev_ind.
  - split; simpl; [|done..| |].
    + split; simpl; [done..|constructor|]. by intros nd c ?%elem_of_nil.
    + by intros i nd ?.
    + intros c. rewrite lookup_empty. simpl. by intros l ?%elem_of_nil.
  - rewrite foldl_app. simpl.
    destruct IH as [Hwf Hlen Hnodes Hch Hpar].
    set (st := foldl seed_page empty_state init) in *.
    destruct (seed_page_spec st s Hwf) as (Hwf' & Hst' & Hsum).
    destruct (alloc_or_same _ _ _ Hst') as (extra & Hheap & Hmap & Hextra).
    split.
    + done.
    + simpl. lia.
    + rewrite Hsum, Hnodes. simpl. by rewrite !app_nil_r, first_seen_snoc.
    + intros i nd Hi. simpl.
      assert (node_children nd = []) as Hnil; [|unfold child_ids; by rewrite Hnil].
      rewrite Hheap in Hi. apply lookup_app_Some in Hi as [Hi | [_ Hi]].
      * specialize (Hch i nd Hi). simpl in Hch. unfold child_ids in Hch.
        by apply map_eq_nil in Hch.
      * apply Hextra. apply list_elem_of_lookup. eauto.
    + intros c. rewrite Hmap. specialize (Hpar c).
      destruct (childOfMap st !! c); simpl in *; [|done].
      by destruct Hpar as (j & l & _ & ? & _).
Qed.

Lemma take_prefix {A} (l k : list A) n :
  l `prefix_of` k → n ≤ length l → take n k = take n l.
Proof. intros [t ->] Hn. by apply take_app_le. Qed.

(** ** First appearances *)

Lemma first_seen_sub obs s : s ∈ first_seen obs → s ∈ obs.
Proof.
  induction obs as [|x obs IH] using rev_ind; [done|].
  rewrite first_seen_snoc, elem_of_app. unfold register_summary.
  case_bool_decide; [by left; apply IH|].
  intros [?|?]%elem_of_app; [left; by apply IH | by right].
Qed.

Lemma first_seen_ids obs i :
  i ∈ map page_id (first_seen obs) ↔ i ∈ map page_id obs.
Proof.
  induction obs as [|x obs IH] using rev_ind; [done|].
  rewrite first_seen_snoc, (map_app _ obs), (elem_of_app (map page_id obs)), <-IH.
  unfold register_summary. case_bool_decide as Hx.
  - split; [by left|]. intros [?|Hi]; [done|].
    simpl in Hi. by apply list_elem_of_singleton in Hi as ->.
  - by rewrite map_app, elem_of_app.
Qed.

Lemma first_seen_NoDup obs : NoDup (map page_id (first_seen obs)).
Proof.
  induction obs as [|x obs IH] using rev_ind; [constructor|].
  rewrite first_seen_snoc. unfold register_summary.
  case_bool_decide as Hx; [done|].
  rewrite map_app. apply NoDup_app. split_and!; [done| |apply NoDup_singleton].
  by intros i Hi ->%list_elem_of_singleton.
Qed.

Lemma filter_none {A} (P : A → Prop) `{!∀ x, Decision (P x)} (l : list A) :
  (∀ x, x ∈ l → ¬ P x) → filter P l = [].
Proof.
  induction l as [|x l IH]; intros Hno; [done|].
  rewrite filter_cons_False by (apply Hno; left).
  apply IH. intros y Hy. apply Hno. by right.
Qed.

(** A registered summary is the first one observed with its id. *)
Lemma first_seen_head obs s :
  s ∈ first_seen obs →
  head (filter (λ x, page_id x = page_id s) obs) = Some s.
Proof.
  induction obs as [|x obs IH] using rev_ind; [by intros ?%elem_of_nil|].
  rewrite first_seen_snoc, filter_app. unfold register_summary.
  case_bool_decide as Hx.
  - intros Hs. specialize (IH Hs).
    destruct (filter _ obs); [done|]. done.
  - intros [Hs | ->%list_elem_of_singleton]%elem_of_app.
    + specialize (IH Hs). destruct (filter _ obs); [done|]. done.
    + assert (filter (λ y, page_id y = page_id x) obs = []) as ->.
      { apply filter_none. intros y Hy Hid. apply Hx.
        apply first_seen_ids. rewrite <-Hid.
        apply (list_elem_of_fmap_2 page_id _ _ Hy). }
      simpl. rewrite filter_cons_True by done. done.
Qed.

(** ** The work-queue loop *)

Lemma drain_calls_prefix f fuel : ∀ st k calls,
  calls `prefix_of` (drain f fuel st k calls).1.
Proof.
  induction fuel as [|fuel IH]; intros st k calls; simpl.
  - by destruct (queue st !! k).
  - destruct (queue st !! k); [|done].
    destruct (f _); simpl.
    + etrans; [|apply IH]. by apply prefix_app_r.
    + by apply prefix_app_r.
Qed.

Lemma inv_ids_observed init st R p :
  inv init st R →
  p ∈ map node_id (heap st) ↔ p ∈ map page_id (init ++ concat R).
Proof.
  intros Hinv. by rewrite <-summary_ids, (inv_nodes _ _ _ Hinv), first_seen_ids.
Qed.

(** The loop was left in the state it was entered in. *)
Local Ltac same_state :=
  split; [done|]; split; [done|]; split; [reflexivity|]; split; [reflexivity|];
  split; [lia|].

Section Drain.
Variable fetchChildren : PageId → fetched.
Variable init : list PageSummary.

(** A run of the loop that starts with the first [length R] pages of the
    queue processed.  Whatever the outcome, there is a state [st'] (the
    variables when the loop was left) with the calls made so far resolved
    to [R']; the call log lists the ids of the queue in order, and every
    call goes to an id that seeding or an earlier call brought in. *)
Lemma drain_spec fuel : ∀ st R calls out,
  inv init st R →
  Forall2 (resolved_by fetchChildren) (take (length R) (map node_id (heap st))) R →
  drain fetchChildren fuel st (length R)
        (take (length R) (map node_id (heap st))) = (calls, out) →
  ∃ st' R',
    inv init st' R' ∧
    Forall2 (resolved_by fetchChildren) (take (length R') (map node_id (heap st'))) R' ∧
    map node_id (heap st) `prefix_of` map node_id (heap st') ∧
    R `prefix_of` R' ∧
    length R' ≤ length R + fuel ∧
    (∀ k p, length R ≤ k → calls !! k = Some p →
            p ∈ map page_id (init ++ concat (take k R'))) ∧
    match out with
    | Returned st'' =>
        st'' = st' ∧ length R' = length (heap st') ∧
        calls = map node_id (heap st')
    | Thrown e =>
        ∃ p, map node_id (heap st') !! length R' = Some p ∧
             fetchChildren p = Rejected e ∧
             calls = take (length R') (map node_id (heap st')) ++ [p]
    | OutOfFuel =>
        calls = take (length R') (map node_id (heap st')) ∧
        length R' < length (heap st') ∧ length R' = length R + fuel
    end.
Proof.
  induction fuel as [|fuel IH]; intros st R calls out Hinv Hres Hrun.
  - simpl in Hrun. rewrite (wf_queue _ (inv_wf _ _ _ Hinv)) in Hrun.
    destruct (decide (length R < length (heap st))) as [Hlt|Hge].
    + rewrite lookup_seq_lt in Hrun by done. injection Hrun as <- <-.
      exists st, R. same_state. split.
      { intros k p Hk Hp. by rewrite lookup_take_ge in Hp. }
      simpl. split_and!; [done|done|lia].
    + rewrite lookup_seq_ge in Hrun by lia. injection Hrun as <- <-.
      exists st, R. pose proof (inv_len _ _ _ Hinv). same_state. split.
      { intros k p Hk Hp. by rewrite lookup_take_ge in Hp. }
      simpl. split_and!; [done|lia|].
      apply take_ge. rewrite length_map. lia.
  - simpl in Hrun. rewrite (wf_queue _ (inv_wf _ _ _ Hinv)) in Hrun.
    destruct (decide (length R < length (heap st))) as [Hlt|Hge].
    + rewrite lookup_seq_lt in Hrun by done. simpl in Hrun.
      destruct (lookup_lt_is_Some_2 (heap st) (length R) Hlt) as [nd Hnd].
      rewrite (id_of_lookup _ _ _ Hnd) in Hrun.
      pose proof (ids_lookup _ _ _ Hnd) as Hid.
      assert (length (take (length R) (map node_id (heap st))) = length R)
        as Hlentake by (rewrite length_take, length_map; lia).
      assert (node_id nd ∈ map page_id (init ++ concat R)) as Hseen.
      { eapply inv_ids_observed; [done|].
        apply list_elem_of_lookup. eauto. }
      destruct (fetchChildren (node_id nd)) as [l|e] eqn:Hfetch.
      * pose proof (inv_open _ _ _ Hinv Hlt) as Hopen.
        destruct (inv_process_children init l _ _ _ Hopen) as [Hinv2 Hpre].
        simpl in Hinv2.
        set (st2 := foldl (process_child (length R)) st l) in *.
        pose proof (drain_calls_prefix fetchChildren fuel st2 (S (length R))
          (take (length R) (map node_id (heap st)) ++ [node_id nd])) as Hcalls.
        rewrite Hrun in Hcalls. simpl in Hcalls.
        assert (take (length (R ++ [l])) (map node_id (heap st2))
                = take (length R) (map node_id (heap st)) ++ [node_id nd]) as Htake.
        { rewrite length_app. simpl. rewrite Nat.add_1_r.
          erewrite take_S_r; [|by eapply prefix_lookup_Some].
          f_equal. apply take_prefix; [done|]. rewrite length_map. lia. }
        rewrite <-Htake in Hrun.
        replace (S (length R)) with (length (R ++ [l])) in Hrun
          by (rewrite length_app; simpl; lia).
        apply IH in Hrun
          as (st' & R' & Hinv' & Hres' & Hpre' & HpreR & Hlen' & Hdisc & Hout);
          [|done|].
        -- exists st', R'. rewrite length_app in Hlen'. simpl in Hlen'.
           split_and!; [done|done|by etrans|by eapply prefix_app_l|lia| |].
           ++ intros k p Hk Hp. destruct (decide (k = length R)) as [->|Hne].
              ** assert (calls !! length R = Some (node_id nd)) as Hcall.
                 { eapply prefix_lookup_Some; [|exact Hcalls].
                   by rewrite lookup_app_r, Hlentake, Nat.sub_diag by lia. }
                 rewrite Hcall in Hp. injection Hp as <-.
                 destruct HpreR as [t ->].
                 by rewrite <-app_assoc, take_app_length.
              ** apply Hdisc; [|done]. rewrite length_app. simpl. lia.
           ++ destruct out; [done..|].
              rewrite length_app in Hout. simpl in Hout.
              destruct Hout as (? & ? & ?). split_and!; [done..|lia].
        -- rewrite Htake. apply Forall2_app; [done|].
           by apply Forall2_cons.
      * injection Hrun as <- <-. exists st, R. same_state. split.
        { intros k p Hk Hp.
          apply lookup_snoc_Some in Hp as [[Hk' _] | [-> <-]]; [lia|].
          by rewrite Hlentake, take_ge. }
        exists (node_id nd). done.
    + rewrite lookup_seq_ge in Hrun by lia. injection Hrun as <- <-.
      exists st, R. pose proof (inv_len _ _ _ Hinv). same_state. split.
      { intros k p Hk Hp. by rewrite lookup_take_ge in Hp. }
      simpl. split_and!; [done|lia|].
      apply take_ge. rewrite length_map. lia.
Qed.
End Drain.

(** ** The whole build *)

Lemma Forall2_kids f (ids : list PageId) R :
  Forall2 (λ p l, f p = Resolved l) ids R →
  R = map (kids f) ids ∧ Forall (λ p, f p = Resolved (kids f p)) ids.
Proof.
  induction 1 as [|p l ids R Hp _ [-> IH]]; [done|].
  assert (kids f p = l) as Hk by (unfold kids; by rewrite Hp).
  split; [simpl; by rewrite Hk|]. constructor; [by rewrite Hk|done].
Qed.

(** What a run of [buildPageTree] leaves behind: variables that satisfy the
    invariant for the calls it made, a call log that follows the queue, and
    the outcome that matches the last call. *)
Lemma build_spec f fuel init calls out :
  buildPageTree f fuel init = (calls, out) →
  ∃ st,
    inv init st (map (kids f) calls) ∧
    calls `prefix_of` map node_id (heap st) ∧
    (∀ k p, calls !! k = Some p →
            p ∈ map page_id (init ++ concat (map (kids f) (take k calls)))) ∧
    match out with
    | Returned (roots, st') =>
        st' = st ∧ roots = rootPages st ∧ calls = map node_id (heap st) ∧
        Forall (λ p, f p = Resolved (kids f p)) calls
    | Thrown e =>
        ∃ before p, calls = before ++ [p] ∧ f p = Rejected e ∧
                    Forall (λ q, f q = Resolved (kids f q)) before
    | OutOfFuel =>
        length calls = fuel ∧ fuel < length (heap st) ∧
        Forall (λ p, f p = Resolved (kids f p)) calls
    end.
Proof.
  unfold buildPageTree.
  destruct (drain f fuel (foldl seed_page empty_state init) 0 []) as [calls0 out0] eqn:E.
  apply (drain_spec f init fuel _ [] calls0 out0 (inv_seed init)) in E;
    [|constructor].
  destruct E as (st & R & Hinv & Hres & _ & _ & Hlen & Hdisc & Hout).
  unfold resolved_by in Hres. apply Forall2_kids in Hres as [HR Hall].
  set (X := take (length R) (map node_id (heap st))) in *.
  assert (∀ t k p, calls0 = X ++ t → calls0 !! k = Some p → k ≤ length X →
            p ∈ map page_id (init ++ concat (map (kids f) (take k calls0))))
    as Hdisc'.
  { intros t k p -> Hp Hk. rewrite take_app_le by done.
    specialize (Hdisc k p ltac:(simpl; lia) Hp).
    by rewrite HR, firstn_map in Hdisc. }
  destruct out0 as [st'|e|].
  - destruct Hout as (-> & HlenR & ->). intros [= <- <-].
    assert (X = map node_id (heap st)) as HX.
    { apply take_ge. rewrite length_map. lia. }
    rewrite HX in *. exists st. rewrite <-HR.
    split; [done|]. split; [done|]. split; [|done].
    intros k p Hp. apply (Hdisc' []); [by rewrite app_nil_r|done|].
    apply lookup_lt_Some in Hp. lia.
  - destruct Hout as (p & Hp & Hrej & ->). intros [= <- <-].
    assert (length R < length (heap st)) as Hlt.
    { apply lookup_lt_Some in Hp. by rewrite length_map in Hp. }
    assert (length X = length R) as HlenX.
    { unfold X. rewrite length_take, length_map. lia. }
    exists st. split; [|split; [|split]].
    + assert (kids f p = []) as Hk by (unfold kids; by rewrite Hrej).
      rewrite map_app, <-HR. simpl. rewrite Hk. by apply inv_open.
    + unfold X. erewrite <-take_S_r by done. apply prefix_take.
    + intros k q Hq. apply (Hdisc' [p]); [done..|].
      apply lookup_lt_Some in Hq. rewrite length_app in Hq. simpl in Hq. lia.
    + by exists X, p.
  - destruct Hout as (-> & Hlt & HlenR). intros [= <- <-].
    assert (length X = length R) as HlenX.
    { unfold X. rewrite length_take, length_map. lia. }
    exists st. rewrite <-HR. split; [done|]. split; [apply prefix_take|]. split.
    + intros k p Hp. apply (Hdisc' []); [by rewrite app_nil_r|done|].
      apply lookup_lt_Some in Hp. lia.
    + simpl in HlenR. split_and!; [lia|lia|done].
Qed.

(** ** Roots and recorded parents *)

Lemma roots_spec st r :
  wf st →
  r ∈ rootPages st ↔
  r < length (heap st) ∧ childOfMap st !! id_of (heap st) r = None.
Proof.
  intros Hwf. unfold rootPages.
  rewrite (wf_pageMap _ Hwf), registry_values, list_elem_of_filter, elem_of_seq.
  split; intros [? ?]; split; (done || lia).
Qed.

Lemma elem_of_concat {A} (x : A) (ls : list (list A)) :
  x ∈ concat ls ↔ ∃ l, x ∈ l ∧ l ∈ ls.
Proof.
  induction ls as [|l ls IH]; simpl.
  - split; [by intros ?%elem_of_nil | by intros (l & _ & ?%elem_of_nil)].
  - rewrite elem_of_app, IH. split.
    + intros [?|(l' & ? & ?)]; [exists l; split; [done|left] | exists l'; split; [done|by right]].
    + intros (l' & ? & [->|?]%elem_of_cons); [by left | right; eauto].
Qed.

Lemma elem_of_kids f (calls : list PageId) c :
  c ∈ map page_id (concat (map (kids f) calls)) ↔
  ∃ p, p ∈ calls ∧ c ∈ map page_id (kids f p).
Proof.
  split.
  - intros (s & -> & Hs)%list_elem_of_fmap.
    apply elem_of_concat in Hs as (l & Hs & (p & -> & Hp)%list_elem_of_fmap).
    exists p. split; [done|]. by apply (list_elem_of_fmap_2 page_id).
  - intros (p & Hp & (s & -> & Hs)%list_elem_of_fmap).
    apply (list_elem_of_fmap_2 page_id). apply elem_of_concat.
    exists (kids f p). split; [done|]. by apply (list_elem_of_fmap_2 (kids f)).
Qed.

(** No recorded parent: no call listed the id. *)
Lemma parent_None f init st calls c :
  inv init st (map (kids f) calls) →
  childOfMap st !! c = None ↔
  (∀ p, p ∈ calls → c ∉ map page_id (kids f p)).
Proof.
  intros Hinv. pose proof (inv_parent _ _ _ Hinv c) as Hpar. split.
  - intros E p Hp. rewrite E in Hpar. apply Hpar.
    by apply (list_elem_of_fmap_2 (kids f)).
  - intros Hno. destruct (childOfMap st !! c) as [q|]; [|done].
    destruct Hpar as (j & l & _ & Hl & Hc & _).
    change (map (kids f) calls) with (kids f <$> calls) in Hl.
    rewrite list_lookup_fmap in Hl.
    destruct (calls !! j) as [p|] eqn:Hj; [|done]. injection Hl as <-.
    destruct (Hno p); [|done]. apply list_elem_of_lookup. eauto.
Qed.

(** A recorded parent is the last call that listed the id. *)
Lemma parent_Some f init st calls c p :
  inv init st (map (kids f) calls) →
  calls `prefix_of` map node_id (heap st) →
  childOfMap st !! c = Some p →
  ∃ j, calls !! j = Some p ∧ c ∈ map page_id (kids f p) ∧
       ∀ j' q, j < j' → calls !! j' = Some q → c ∉ map page_id (kids f q).
Proof.
  intros Hinv Hpre E. pose proof (inv_parent _ _ _ Hinv c) as Hpar.
  rewrite E in Hpar. destruct Hpar as (j & l & Hp & Hl & Hc & Hlater).
  change (map (kids f) calls) with (kids f <$> calls) in *.
  rewrite list_lookup_fmap in Hl.
  destruct (calls !! j) as [q|] eqn:Hj; [|done]. injection Hl as <-.
  assert (q = p) as ->.
  { pose proof (prefix_lookup_Some _ _ _ _ Hj Hpre) as Hq. congruence. }
  exists j. split_and!; [done..|].
  intros j' q Hjj' Hq. apply (Hlater j' (kids f q)); [done|].
  by rewrite list_lookup_fmap, Hq.
Qed.

(** ** Children arrays *)

Lemma distinct_elem l i : i ∈ distinct l ↔ i ∈ l.
Proof.
  induction l as [|x l IH] using rev_ind; [done|].
  rewrite add_id_snoc, elem_of_app, <-IH. unfold add_id.
  case_bool_decide as Hx.
  - split; [by left|]. by intros [?| ->%list_elem_of_singleton].
  - by rewrite elem_of_app.
Qed.

Lemma distinct_NoDup l : NoDup (distinct l).
Proof.
  induction l as [|x l IH] using rev_ind; [constructor|].
  rewrite add_id_snoc. unfold add_id. case_bool_decide as Hx; [done|].
  apply NoDup_app. split_and!; [done| |apply NoDup_singleton].
  by intros i Hi ->%list_elem_of_singleton.
Qed.

Lemma exactly_once {A B} `{EqDecision B} (g : A → B) (l : list A) y :
  NoDup (map g l) → y ∈ map g l →
  length (filter (λ c, g c = y) l) = 1.
Proof.
  induction l as [|x l IH]; simpl; [by intros _ ?%elem_of_nil|].
  intros [Hx Hnd]%NoDup_cons Hy.
  destruct (decide (g x = y)) as [<-|Hne].
  - rewrite filter_cons_True by done. simpl. f_equal.
    rewrite filter_none; [done|]. intros c Hc Hg. apply Hx.
    rewrite <-Hg. by apply (list_elem_of_fmap_2 g).
  - rewrite filter_cons_False by done. apply IH; [done|].
    by apply elem_of_cons in Hy as [?|?].
Qed.

(** Once every queued page has been processed, a page object's children are
    the distinct ids its fetch listed, in order of first appearance. *)
Lemma children_of_node f init st r nd :
  inv init st (map (kids f) (map node_id (heap st))) →
  heap st !! r = Some nd →
  child_ids (heap st) nd = distinct (map page_id (kids f (node_id nd))).
Proof.
  intros Hinv Hnd. rewrite (inv_children _ _ _ Hinv r nd Hnd).
  change (map (kids f) ?l) with (kids f <$> l).
  by rewrite list_lookup_fmap, (ids_lookup _ _ _ Hnd).
Qed.

(** ** Walking the forest *)

Lemma elem_of_walk d h pages r :
  r ∈ forest_walk (S d) h pages ↔
  ∃ page, page ∈ pages ∧
          (r = page ∨ r ∈ forest_walk d h (node_children (deref h page))).
Proof.
  simpl. rewrite list_elem_of_In, in_flat_map. split.
  - intros (page & Hp & [<-|Hr]); exists page;
      rewrite list_elem_of_In; (split; [done|]); [by left|].
    right. by apply list_elem_of_In.
  - intros (page & Hp & [->|Hr]); exists page;
      rewrite <-list_elem_of_In; (split; [done|]); [by left|].
    right. by apply list_elem_of_In.
Qed.

(** The walk stays inside the heap. *)
Lemma walk_in_heap st d : ∀ pages r,
  wf st → (∀ page, page ∈ pages → page < length (heap st)) →
  r ∈ forest_walk d (heap st) pages → r < length (heap st).
Proof.
  induction d as [|d IH]; intros pages r Hwf Hpages; [by intros ?%elem_of_nil|].
  intros (page & Hp & [->|Hr])%elem_of_walk; [by apply Hpages|].
  apply (IH _ _ Hwf) in Hr; [done|].
  intros c Hc. destruct (lookup_lt_is_Some_2 _ _ (Hpages _ Hp)) as [nd Hnd].
  rewrite (deref_lookup _ _ _ Hnd) in Hc.
  eapply wf_refs; [done| |done]. apply list_elem_of_lookup. eauto.
Qed.

Lemma walk_root d h pages r : r ∈ pages → r ∈ forest_walk (S d) h pages.
Proof. intros Hr. apply elem_of_walk. exists r. split; [done|by left]. Qed.

Lemma walk_mono d h : ∀ pages r,
  r ∈ forest_walk d h pages → r ∈ forest_walk (S d) h pages.
Proof.
  induction d as [|d IH]; intros pages r; [by intros ?%elem_of_nil|].
  intros (page & Hp & [->|Hr])%elem_of_walk; apply elem_of_walk;
    exists page; (split; [done|]); [by left|].
  right. by apply IH.
Qed.

Lemma walk_mono_le d d' h pages r :
  d ≤ d' → r ∈ forest_walk d h pages → r ∈ forest_walk d' h pages.
Proof. induction 1 as [|d' _ IH]; [done|]. intros Hr. by apply walk_mono, IH. Qed.

(** A child of a page met by the walk is met one level further down. *)
Lemma walk_child h c : ∀ d pages r,
  r ∈ forest_walk d h pages → c ∈ node_children (deref h r) →
  c ∈ forest_walk (S d) h pages.
Proof.
  induction d as [|d IH]; intros pages r; [by intros ?%elem_of_nil|].
  intros (page & Hp & [->|Hr])%elem_of_walk Hc; apply elem_of_walk;
    exists page; (split; [done|]); right.
  - by apply walk_root.
  - by eapply IH.
Qed.

Lemma filter_length_strict {A} (P Q : A → Prop)
    `{!∀ x, Decision (P x), !∀ x, Decision (Q x)} (l : list A) y :
  (∀ x, P x → Q x) → y ∈ l → Q y → ¬ P y →
  length (filter P l) < length (filter Q l).
Proof.
  intros HPQ Hy HQ HP. rewrite <-(list_filter_filter_l P Q) by done.
  apply (length_filter_lt _ _ y); [|done]. by apply list_elem_of_filter.
Qed.

(** Two valid references to objects with one id are one reference. *)
Lemma ref_unique st r1 r2 :
  wf st → r1 < length (heap st) → r2 < length (heap st) →
  id_of (heap st) r1 = id_of (heap st) r2 → r1 = r2.
Proof.
  intros Hwf H1 H2 Hid.
  destruct (lookup_lt_is_Some_2 _ _ H1) as [nd1 Hnd1].
  destruct (lookup_lt_is_Some_2 _ _ H2) as [nd2 Hnd2].
  rewrite (id_of_lookup _ _ _ Hnd1), (id_of_lookup _ _ _ Hnd2) in Hid.
  eapply NoDup_lookup; [apply (wf_ids _ Hwf)|by apply ids_lookup|].
  rewrite Hid. by apply ids_lookup.
Qed.

(** The object of a listed child sits in the array of the page that listed
    it: a pushed child is never taken out again. *)
Lemma child_ref f init st j nd c :
  inv init st (map (kids f) (map node_id (heap st))) →
  heap st !! j = Some nd → c ∈ map page_id (kids f (node_id nd)) →
  ∃ r, r ∈ node_children nd ∧ id_of (heap st) r = c ∧ r < length (heap st).
Proof.
  intros Hinv Hnd Hc. apply distinct_elem in Hc.
  rewrite <-(children_of_node _ _ _ _ _ Hinv Hnd) in Hc.
  apply list_elem_of_fmap in Hc as (r & -> & Hr).
  exists r. split_and!; [done..|].
  eapply wf_refs; [apply (inv_wf _ _ _ Hinv)| |done].
  apply list_elem_of_lookup. eauto.
Qed.

(** An entry of a children array was listed by the owner's fetch. *)
Lemma child_listed f init st j nd r :
  inv init st (map (kids f) (map node_id (heap st))) →
  heap st !! j = Some nd → r ∈ node_children nd →
  id_of (heap st) r ∈ map page_id (kids f (node_id nd)).
Proof.
  intros Hinv Hnd Hr. apply distinct_elem.
  rewrite <-(children_of_node _ _ _ _ _ Hinv Hnd).
  by apply (list_elem_of_fmap_2 (id_of (heap st))).
Qed.

(** Without cycles every page object is met by the walk of the roots: its
    chain of recorded parents climbs through strictly smaller ranks, so it
    reaches a root in fewer steps than the heap has objects. *)
Lemma forest_covers f init st :
  inv init st (map (kids f) (map node_id (heap st))) →
  acyclic_on f (map node_id (heap st)) →
  ∀ r, r < length (heap st) →
       r ∈ forest_walk (length (heap st)) (heap st) (rootPages st).
Proof.
  intros Hinv [rank Hrank].
  pose proof (inv_wf _ _ _ Hinv) as Hwf.
  set (below r := filter (λ x, rank (id_of (heap st) x) < rank (id_of (heap st) r))
                         (seq 0 (length (heap st)))).
  assert (∀ m r, r < length (heap st) → rank (id_of (heap st) r) < m →
            r ∈ forest_walk (S (length (below r))) (heap st) (rootPages st))
    as Hstep.
  { induction m as [|m IH]; intros r Hr Hm; [lia|].
    destruct (childOfMap st !! id_of (heap st) r) as [p|] eqn:E.
    - destruct (parent_Some f init st _ _ p Hinv (reflexivity _) E)
        as (j & Hj & Hc & _).
      change (map node_id (heap st)) with (node_id <$> heap st) in Hj.
      apply list_lookup_fmap_Some in Hj as (nd & -> & Hnd).
      pose proof (lookup_lt_Some _ _ _ Hnd) as Hjlt.
      destruct (child_ref _ _ _ _ _ _ Hinv Hnd Hc) as (r' & Hr' & Hid & Hlt).
      assert (r' = r) as -> by (by eapply ref_unique).
      assert (rank (id_of (heap st) j) < rank (id_of (heap st) r)) as Hlower.
      { rewrite (id_of_lookup _ _ _ Hnd).
        apply list_elem_of_fmap in Hc as (s & -> & Hs).
        apply Hrank; [|done]. apply list_elem_of_lookup.
        exists j. by apply ids_lookup. }
      assert (length (below j) < length (below r)) as Hfewer.
      { apply (filter_length_strict _ _ _ j); [lia| |done|lia].
        apply elem_of_seq. lia. }
      apply (walk_mono_le (S (S (length (below j))))); [lia|].
      apply (walk_child _ _ _ _ j).
      + apply IH; [done|lia].
      + by rewrite (deref_lookup _ _ _ Hnd).
    - apply walk_root. by apply roots_spec. }
  intros r Hr.
  eapply walk_mono_le; [|apply (Hstep (S (rank (id_of (heap st) r)))); [done|lia]].
  assert (length (below r) < length (seq 0 (length (heap st)))) as Hlt.
  { apply (length_filter_lt _ _ r); [|lia]. apply elem_of_seq. lia. }
  rewrite length_seq in Hlt. lia.
Qed.

(** With or without cycles, the walk of the roots meets page objects only,
    each reference listed once in [forest_nodes]. *)
Lemma forest_nodes_valid st r :
  wf st → r ∈ forest_nodes (heap st) (rootPages st) → r < length (heap st).
Proof.
  intros Hwf Hr. unfold forest_nodes in Hr. rewrite elem_of_remove_dups in Hr.
  apply (walk_in_heap st (length (heap st)) (rootPages st) r Hwf); [|done].
  by intros page [? _]%roots_spec.
Qed.

(** The number of distinct ids among summaries. *)
Lemma distinct_ids_count obs :
  length (remove_dups (map page_id obs)) = length (first_seen obs).
Proof.
  rewrite <-(length_map page_id (first_seen obs)). apply Permutation_length.
  apply NoDup_Permutation; [apply NoDup_remove_dups|apply first_seen_NoDup|].
  intros i. by rewrite elem_of_remove_dups, first_seen_ids.
Qed.

Lemma exactly_once_here {A} `{EqDecision A} (l : list A) y :
  NoDup l → y ∈ l → length (filter (λ x, x = y) l) = 1.
Proof.
  intros Hnd Hy. apply (exactly_once (λ x, x)); by rewrite map_id.
Qed.

Lemma roots_NoDup st : wf st → NoDup (rootPages st).
Proof.
  intros Hwf. unfold rootPages.
  rewrite (wf_pageMap _ Hwf), registry_values.
  apply NoDup_filter, NoDup_seq.
Qed.

(** ** Fuel and the answers of the remote *)

(** A run that ended is not changed by a larger budget. *)
Lemma drain_more_fuel f extra fuel : ∀ st k calls,
  (drain f fuel st k calls).2 ≠ OutOfFuel →
  drain f (fuel + extra) st k calls = drain f fuel st k calls.
Proof.
  induction fuel as [|fuel IH]; intros st k calls; simpl.
  - destruct (queue st !! k) eqn:E; simpl; [done|].
    intros _. destruct extra; simpl; by rewrite E.
  - destruct (queue st !! k); [|done].
    destruct (f _); [apply IH|done].
Qed.

(** A run only depends on the answers to the calls it makes. *)
Lemma drain_ext f g fuel : ∀ st k calls,
  (∀ p, p ∈ (drain f fuel st k calls).1 → g p = f p) →
  drain g fuel st k calls = drain f fuel st k calls.
Proof.
  induction fuel as [|fuel IH]; intros st k calls Hsame; simpl in *; [done|].
  destruct (queue st !! k) as [cur|]; [|done].
  assert (g (id_of (heap st) cur) = f (id_of (heap st) cur)) as ->.
  { apply Hsame. destruct (f (id_of (heap st) cur)); simpl.
    - eapply elem_of_prefix; [|apply drain_calls_prefix].
      apply elem_of_app. right. left.
    - apply elem_of_app. right. left. }
  destruct (f (id_of (heap st) cur)); [by apply IH|done].
Qed.

(** The budget matters only for a remote that keeps naming new pages: there
    the queue never drains, whatever the budget. *)
Lemma endless_never_returns fuel :
  (buildPageTree endless_fetch fuel [mkSummary 0 EmptyString]).2 = OutOfFuel.
Proof.
  destruct (buildPageTree endless_fetch fuel [mkSummary 0 EmptyString])
    as [calls out] eqn:E.
  simpl. apply build_spec in E as (st & Hinv & _ & _ & Hout).
  destruct out as [[roots st']|e|]; [| |done].
  - destruct Hout as (_ & _ & -> & _).
    assert (∀ k, k ∈ map node_id (heap st)) as Hall.
    { induction k as [|k IH]; eapply inv_ids_observed; try done;
        rewrite map_app, elem_of_app.
      - left. simpl. left.
      - right. apply elem_of_kids. exists k. split; [done|]. simpl. left. }
    assert (length (seq 0 (S (length (heap st)))) ≤ length (map node_id (heap st)))
      as Hle by (apply submseteq_length, NoDup_submseteq; [apply NoDup_seq|done]).
    rewrite length_seq, length_map in Hle. lia.
  - by destruct Hout as (before & p & _ & ? & _).
Qed.

(** Closed goals about the scenarios are settled by evaluation. *)
Local Ltac by_compute := apply (bool_decide_unpack _); vm_compute; exact I.

(** ** The scenarios of the specification, evaluated *)

Example scenario1_forest :
  let run := buildPageTree (fetch_of []) 10 [A1] in
  run.1 = [1] ∧ (result_of run).1 = [0] ∧
  heap (result_of run).2 = [mkNode 1 "A"%string []].
Proof. split_and!; vm_compute; reflexivity. Qed.

Example scenario2_forest :
  scenario2.1 = [1; 2] ∧ (result_of scenario2).1 = [0] ∧
  heap (result_of scenario2).2
  = [mkNode 1 "A"%string [1]; mkNode 2 "B"%string []].
Proof. split_and!; vm_compute; reflexivity. Qed.

Example scenario3_forest :
  (result_of scenario3).1 = [0] ∧
  heap (result_of scenario3).2
  = [mkNode 1 "A"%string [1]; mkNode 2 "B"%string []].
Proof. split_and!; vm_compute; reflexivity. Qed.

Example scenario4_forest :
  scenario4.1 = [1; 2; 3] ∧ (result_of scenario4).1 = [0; 1] ∧
  heap (result_of scenario4).2
  = [mkNode 1 "A"%string [2]; mkNode 2 "B"%string [2]; mkNode 3 "C"%string []] ∧
  childOfMap (result_of scenario4).2 !! 3 = Some 2.
Proof. split_and!; vm_compute; reflexivity. Qed.

Example scenario5_forest :
  buildPageTree (fetch_of []) 0 [] = ([], Returned ([], empty_state)).
Proof. vm_compute; reflexivity. Qed.

Example self_child_forest :
  self_child.1 = [1] ∧ (result_of self_child).1 = [] ∧
  heap (result_of self_child).2 = [mkNode 1 "A"%string [0]] ∧
  childOfMap (result_of self_child).2 !! 1 = Some 1.
Proof. split_and!; vm_compute; reflexivity. Qed.

(** * The claims *)

(** C1, as the code has it. A child stays under every parent that listed
    it.  When two calls, the second after the first, both list an id, the
    one page object of that id is in the [children] array of both parents'
    objects: the entry under the earlier parent is still there when the
    build returns.  The object is no root, and [childOfMap] names a parent
    other than the earlier one. *)
Theorem C1_child_kept_under_both_parents f fuel init calls roots st j1 j2 p1 p2 c :
  buildPageTree f fuel init = (calls, Returned (roots, st)) →
  calls !! j1 = Some p1 → calls !! j2 = Some p2 → j1 < j2 →
  c ∈ map page_id (kids f p1) → c ∈ map page_id (kids f p2) →
  ∃ r nd1 nd2 q,
    heap st !! j1 = Some nd1 ∧ node_id nd1 = p1 ∧
    heap st !! j2 = Some nd2 ∧ node_id nd2 = p2 ∧
    id_of (heap st) r = c ∧
    r ∈ node_children nd1 ∧ r ∈ node_children nd2 ∧
    (r ∉ roots) ∧ childOfMap st !! c = Some q ∧ q ≠ p1.
Proof.
  intros (st' & Hinv & Hpre & _ & <- & -> & -> & _)%build_spec H1 H2 Hlt Hc1 Hc2.
  pose proof (inv_wf _ _ _ Hinv) as Hwf.
  change (map node_id (heap st)) with (node_id <$> heap st) in H1, H2.
  apply list_lookup_fmap_Some in H1 as (nd1 & -> & Hnd1).
  apply list_lookup_fmap_Some in H2 as (nd2 & -> & Hnd2).
  destruct (child_ref _ _ _ _ _ _ Hinv Hnd1 Hc1) as (r & Hr1 & Hid & Hrlt).
  destruct (child_ref _ _ _ _ _ _ Hinv Hnd2 Hc2) as (r' & Hr2 & Hid' & Hrlt').
  assert (r' = r) as -> by (eapply ref_unique; [done..|congruence]).
  assert (node_id nd2 ∈ map node_id (heap st)) as Hin2.
  { apply list_elem_of_lookup. exists j2. by apply ids_lookup. }
  destruct (childOfMap st !! c) as [q|] eqn:E.
  - exists r, nd1, nd2, q. split_and!; [done..| |done|].
    + intros [_ Hnone]%roots_spec; [|done]. congruence.
    + destruct (parent_Some _ _ _ _ _ _ Hinv Hpre E) as (j & Hj & _ & Hlast).
      intros ->.
      assert (j = j1) as ->.
      { eapply NoDup_lookup; [apply (wf_ids _ Hwf)|done|by apply ids_lookup]. }
      by apply (Hlast j2 (node_id nd2) Hlt (ids_lookup _ _ _ Hnd2)).
  - by destruct (proj1 (parent_None _ _ _ _ _ Hinv) E (node_id nd2) Hin2).
Qed.

Lemma C1_child_kept_under_both_parents_witness :
  scenario4 = ([1; 2; 3], Returned ((result_of scenario4).1, (result_of scenario4).2)) ∧
  ∃ r nd1 nd2 q,
    (heap (result_of scenario4).2) !! 0 = Some nd1 ∧ node_id nd1 = 1 ∧
    (heap (result_of scenario4).2) !! 1 = Some nd2 ∧ node_id nd2 = 2 ∧
    id_of (heap (result_of scenario4).2) r = 3 ∧
    r ∈ node_children nd1 ∧ r ∈ node_children nd2 ∧
    (r ∉ (result_of scenario4).1) ∧
    (childOfMap (result_of scenario4).2) !! 3 = Some q ∧ q ≠ 1.
Proof.
  assert (scenario4 = ([1; 2; 3], Returned ((result_of scenario4).1, (result_of scenario4).2)))
    as Hrun by (vm_compute; reflexivity).
  split; [exact Hrun|].
  apply (C1_child_kept_under_both_parents _ _ _ _ _ _ 0 1 1 2 3 Hrun);
    [reflexivity|reflexivity|lia|by_compute|by_compute].
Defined.

(** C2, as the code has it. Every id of [initialPages] or of a fetch result has
    exactly one page object.  If [childOfMap] has no entry for the id, the
    object is a root, once, and in no [children] array.  Otherwise it is no
    root and occurs exactly once in the [children] array of the parent that
    [childOfMap] records, which is the last call that listed the id.  When
    the child data seen by the calls is acyclic, the object is among the
    pages of the returned forest. *)
Theorem C2_every_id_has_its_place f fuel init calls roots st s :
  buildPageTree f fuel init = (calls, Returned (roots, st)) →
  s ∈ observed f init calls →
  ∃ r nd,
    heap st !! r = Some nd ∧ node_id nd = page_id s ∧
    (∀ r', r' < length (heap st) → id_of (heap st) r' = page_id s → r' = r) ∧
    (acyclic_on f calls → r ∈ forest_nodes (heap st) roots) ∧
    match childOfMap st !! page_id s with
    | None =>
        length (filter (λ x, x = r) roots) = 1 ∧
        ∀ nd', nd' ∈ heap st → r ∉ node_children nd'
    | Some p =>
        (r ∉ roots) ∧
        ∃ j ndp, calls !! j = Some p ∧ heap st !! j = Some ndp ∧
                 node_id ndp = p ∧
                 length (filter (λ x, x = r) (node_children ndp)) = 1 ∧
                 ∀ j' q, j < j' → calls !! j' = Some q →
                         page_id s ∉ map page_id (kids f q)
    end.
Proof.
  intros (st' & Hinv & Hpre & _ & <- & -> & -> & _)%build_spec Hs.
  pose proof (inv_wf _ _ _ Hinv) as Hwf.
  assert (page_id s ∈ map node_id (heap st)) as Hin.
  { eapply inv_ids_observed; [done|]. by apply (list_elem_of_fmap_2 page_id). }
  apply list_elem_of_lookup in Hin as [r Hr].
  change (map node_id (heap st)) with (node_id <$> heap st) in Hr.
  apply list_lookup_fmap_Some in Hr as (nd & Hid & Hnd).
  pose proof (lookup_lt_Some _ _ _ Hnd) as Hrlt.
  pose proof (id_of_lookup _ _ _ Hnd) as Hidr.
  exists r, nd. split; [done|]. split; [done|]. split; [|split].
  - intros r' Hr' Hid'. eapply ref_unique; [done..|congruence].
  - intros Hacyclic. apply elem_of_remove_dups. by eapply forest_covers.
  - destruct (childOfMap st !! page_id s) as [p|] eqn:E.
    + split.
      { intros [_ Hnone]%roots_spec; [|done]. congruence. }
      destruct (parent_Some _ _ _ _ _ _ Hinv Hpre E) as (j & Hj & Hc & Hlast).
      pose proof Hj as Hj'.
      change (map node_id (heap st)) with (node_id <$> heap st) in Hj'.
      apply list_lookup_fmap_Some in Hj' as (ndp & Hp & Hndp).
      exists j, ndp. split_and!; [done..| |done].
      rewrite Hp in Hc.
      destruct (child_ref _ _ _ _ _ _ Hinv Hndp Hc) as (r' & Hr' & Hid' & Hlt').
      assert (r' = r) as -> by (eapply ref_unique; [done..|congruence]).
      apply exactly_once_here; [|done].
      apply (NoDup_fmap_1 (id_of (heap st))).
      change (NoDup (child_ids (heap st) ndp)).
      rewrite (children_of_node _ _ _ _ _ Hinv Hndp). apply distinct_NoDup.
    + split.
      { apply exactly_once_here; [by apply roots_NoDup|].
        apply roots_spec; [done|]. split; [done|congruence]. }
      intros nd' [j Hnd']%list_elem_of_lookup Hr'.
      pose proof (child_listed _ _ _ _ _ _ Hinv Hnd' Hr') as Hlisted.
      rewrite Hidr, <-Hid in Hlisted.
      apply (proj1 (parent_None _ _ _ _ _ Hinv) E (node_id nd')); [|done].
      apply list_elem_of_lookup. exists j. by apply ids_lookup.
Qed.

Lemma C2_every_id_has_its_place_witness :
  scenario2 = ([1; 2], Returned ((result_of scenario2).1, (result_of scenario2).2)) ∧
  B2 ∈ observed (fetch_of [(1, [B2])]) [A1; B2] [1; 2] ∧
  ∃ r nd,
    heap (result_of scenario2).2 !! r = Some nd ∧ node_id nd = 2 ∧
    (∀ r', r' < 2 → id_of (heap (result_of scenario2).2) r' = 2 → r' = r).
Proof.
  assert (scenario2 = ([1; 2], Returned ((result_of scenario2).1, (result_of scenario2).2)))
    as Hrun by (vm_compute; reflexivity).
  assert (B2 ∈ observed (fetch_of [(1, [B2])]) [A1; B2] [1; 2]) as Hobs by by_compute.
  split; [exact Hrun|]. split; [exact Hobs|].
  destruct (C2_every_id_has_its_place _ _ _ _ _ _ _ Hrun Hobs)
    as (r & nd & Hnd & Hid & Huniq & _).
  exists r, nd. split; [exact Hnd|]. split; [exact Hid|]. exact Huniq.
Defined.

(** C2 as the specification states it fails in two ways.  With a child
    listed by two parents (scenario 4) the walk of the returned forest meets
    page 3 twice, under page 1 and under page 2, however deep it goes.  With
    a page that lists itself, no root is returned and the walk never meets
    page 1. *)
Lemma C2_counterexample :
  (scenario4 = ([1; 2; 3], Returned ((result_of scenario4).1, (result_of scenario4).2)) ∧
   C3 ∈ observed (fetch_of [(1, [C3]); (2, [C3])]) [A1; B2] [1; 2; 3] ∧
   occurrences 3 (heap (result_of scenario4).2) (result_of scenario4).1 3 = 2 ∧
   ∀ depth, occurrences depth (heap (result_of scenario4).2) (result_of scenario4).1 3 ≠ 1) ∧
  (self_child = ([1], Returned ((result_of self_child).1, (result_of self_child).2)) ∧
   A1 ∈ observed (fetch_of [(1, [A1])]) [A1] [1] ∧
   ∀ depth, occurrences depth (heap (result_of self_child).2) (result_of self_child).1 1 ≠ 1).
Proof.
  split; split_and!.
  - vm_compute; reflexivity.
  - by_compute.
  - vm_compute; reflexivity.
  - intros [|[|[|depth]]]; vm_compute; discriminate.
  - vm_compute; reflexivity.
  - by_compute.
  - intros [|depth]; vm_compute; discriminate.
Qed.

(** C3, as the code has it. No two page objects carry one id, so references to
    objects with the same id are the same reference, every observed id has
    its object, and the build holds as many page objects as it observed
    distinct ids.  The walk of the returned forest meets page objects of the
    build only; when the child data seen by the calls is acyclic it meets
    all of them, and the number of distinct references in the forest equals
    the number of distinct ids observed. *)
Theorem C3_one_object_per_id f fuel init calls roots st :
  buildPageTree f fuel init = (calls, Returned (roots, st)) →
  NoDup (map node_id (heap st)) ∧
  (∀ r1 r2, r1 < length (heap st) → r2 < length (heap st) →
     id_of (heap st) r1 = id_of (heap st) r2 → r1 = r2) ∧
  (∀ s, s ∈ observed f init calls →
     ∃ r nd, JsMap.get (pageMap st) (page_id s) = Some r ∧
             heap st !! r = Some nd ∧ node_id nd = page_id s) ∧
  length (heap st) = length (remove_dups (map page_id (observed f init calls))) ∧
  (∀ r, r ∈ forest_nodes (heap st) roots → r < length (heap st)) ∧
  (acyclic_on f calls →
     length (forest_nodes (heap st) roots)
     = length (remove_dups (map page_id (observed f init calls)))).
Proof.
  intros (st' & Hinv & _ & _ & <- & -> & -> & _)%build_spec.
  pose proof (inv_wf _ _ _ Hinv) as Hwf.
  pose proof (inv_nodes _ _ _ Hinv) as Hnodes.
  fold (observed f init (map node_id (heap st))) in Hnodes.
  assert (length (heap st)
          = length (remove_dups (map page_id (observed f init (map node_id (heap st))))))
    as Hcount.
  { by rewrite distinct_ids_count, <-Hnodes, length_map. }
  split; [apply (wf_ids _ Hwf)|]. split; [intros r1 r2; by apply ref_unique|].
  split; [|split; [done|split]].
  - intros s Hs.
    assert (page_id s ∈ map node_id (heap st)) as Hin.
    { rewrite <-summary_ids, Hnodes. apply first_seen_ids.
      by apply (list_elem_of_fmap_2 page_id). }
    apply list_elem_of_lookup in Hin as [r Hr].
    change (map node_id (heap st)) with (node_id <$> heap st) in Hr.
    apply list_lookup_fmap_Some in Hr as (nd & Hid & Hnd).
    exists r, nd. split_and!; [|done..].
    rewrite (wf_pageMap _ Hwf). apply registry_get; [apply (wf_ids _ Hwf)|]. eauto.
  - intros r. by apply forest_nodes_valid.
  - intros Hacyclic. rewrite <-Hcount.
    transitivity (length (seq 0 (length (heap st)))); [|by rewrite length_seq].
    apply Permutation_length, NoDup_Permutation;
      [apply NoDup_remove_dups|apply NoDup_seq|].
    intros r. rewrite elem_of_seq. split.
    + intros Hr%forest_nodes_valid; [lia|done].
    + intros [_ Hr]. apply elem_of_remove_dups.
      by eapply forest_covers.
Qed.

Lemma scenario4_acyclic : acyclic_on (fetch_of [(1, [C3]); (2, [C3])]) [1; 2; 3].
Proof.
  exists (λ i, i).
  intros p s [->|[->|[->|[]%elem_of_nil]%elem_of_cons]%elem_of_cons]%elem_of_cons Hs;
    unfold kids, fetch_of in Hs; simpl in Hs.
  - apply list_elem_of_singleton in Hs as ->. simpl. lia.
  - apply list_elem_of_singleton in Hs as ->. simpl. lia.
  - by apply elem_of_nil in Hs.
Qed.

Lemma C3_one_object_per_id_witness :
  scenario4 = ([1; 2; 3], Returned ((result_of scenario4).1, (result_of scenario4).2)) ∧
  length (forest_nodes (heap (result_of scenario4).2) (result_of scenario4).1)
  = length (remove_dups (map page_id
      (observed (fetch_of [(1, [C3]); (2, [C3])]) [A1; B2] [1; 2; 3]))).
Proof.
  assert (scenario4 = ([1; 2; 3], Returned ((result_of scenario4).1, (result_of scenario4).2)))
    as Hrun by (vm_compute; reflexivity).
  split; [exact Hrun|].
  apply (C3_one_object_per_id _ _ _ _ _ _ Hrun), scenario4_acyclic.
Defined.

(** C3 as the specification states it fails on cyclic data.  Page 1 lists
    itself as its child: one id is observed and one object is built, but the
    object is recorded as its own child, no root is returned, and the
    forest holds no reference at all. *)
Lemma C3_counterexample :
  self_child = ([1], Returned ((result_of self_child).1, (result_of self_child).2)) ∧
  (∀ depth, forest_walk depth (heap (result_of self_child).2) (result_of self_child).1 = []) ∧
  length (forest_nodes (heap (result_of self_child).2) (result_of self_child).1) = 0 ∧
  length (remove_dups (map page_id (observed (fetch_of [(1, [A1])]) [A1] [1]))) = 1 ∧
  length (forest_nodes (heap (result_of self_child).2) (result_of self_child).1)
  ≠ length (remove_dups (map page_id (observed (fetch_of [(1, [A1])]) [A1] [1]))).
Proof.
  split_and!; [|intros [|depth]|..]; vm_compute; (reflexivity || discriminate).
Qed.

(** C4. When the ids the remote can name lie in a finite list [U] (cyclic
    and self-referential child data included), the build ends within
    [length U] iterations of the loop, by returning or by throwing, and a
    larger budget gives the same run; no id is passed to [fetchChildren]
    twice, however often it is listed as a child. *)
Theorem C4_terminates_one_call_per_id f init (U : list PageId) fuel :
  (∀ s, s ∈ init → page_id s ∈ U) →
  (∀ p s, s ∈ kids f p → page_id s ∈ U) →
  length U ≤ fuel →
  ∃ calls out,
    buildPageTree f fuel init = (calls, out) ∧ out ≠ OutOfFuel ∧
    NoDup calls ∧ length calls ≤ length U ∧
    ∀ more, buildPageTree f (fuel + more) init = (calls, out).
Proof.
  intros Hinit Hkids Hfuel.
  destruct (buildPageTree f fuel init) as [calls out] eqn:E.
  exists calls, out. split; [done|].
  pose proof E as (st & Hinv & Hpre & _ & Hout)%build_spec.
  pose proof (wf_ids _ (inv_wf _ _ _ Hinv)) as Hnd.
  assert (length (heap st) ≤ length U) as Hbound.
  { rewrite <-(length_map node_id). apply submseteq_length, NoDup_submseteq; [done|].
    intros p Hp. eapply inv_ids_observed in Hp; [|done].
    rewrite map_app in Hp. apply elem_of_app in Hp as [Hp|Hp].
    - apply list_elem_of_fmap in Hp as (s & -> & Hs). by apply Hinit.
    - apply elem_of_kids in Hp as (q & _ & (s & -> & Hs)%list_elem_of_fmap).
      by eapply Hkids. }
  assert (out ≠ OutOfFuel) as Hended.
  { intros ->. destruct Hout as (_ & ? & _). lia. }
  split; [done|]. split; [|split].
  - destruct Hpre as [t Ht]. rewrite Ht in Hnd.
    by apply NoDup_app in Hnd as [? _].
  - apply prefix_length in Hpre. rewrite length_map in Hpre. lia.
  - intros more. unfold buildPageTree in *. rewrite drain_more_fuel.
    + done.
    + destruct (drain f fuel _ 0 []) as [c [st'|e|]]; simpl; [done|done|].
      by injection E as <- <-.
Qed.

Lemma C4_terminates_one_call_per_id_witness :
  ∃ calls out, self_child = (calls, out) ∧ out ≠ OutOfFuel ∧
    NoDup calls ∧ length calls ≤ length [1] ∧
    ∀ more, buildPageTree (fetch_of [(1, [A1])]) (10 + more) [A1] = (calls, out).
Proof.
  apply (C4_terminates_one_call_per_id (fetch_of [(1, [A1])]) [A1] [1] 10).
  - intros s ->%list_elem_of_singleton. left.
  - intros p s. unfold kids, fetch_of. simpl.
    destruct (decide (1 = p)); simpl.
    + intros ->%list_elem_of_singleton. left.
    + by intros ?%elem_of_nil.
  - simpl. lia.
Defined.

(** C5. No [children] array lists an id twice: not in any page object of
    the build, hence in none that the walk of the returned forest meets; and
    a child that its parent's fetch lists (even more than once) occurs
    exactly once among the parent's children. *)
Theorem C5_no_duplicate_children f fuel init calls roots st :
  buildPageTree f fuel init = (calls, Returned (roots, st)) →
  (∀ nd, nd ∈ heap st → NoDup (child_ids (heap st) nd)) ∧
  (∀ depth r, r ∈ forest_walk depth (heap st) roots →
     NoDup (child_ids (heap st) (deref (heap st) r))) ∧
  (∀ r nd s, heap st !! r = Some nd → s ∈ kids f (node_id nd) →
     length (filter (λ c, id_of (heap st) c = page_id s) (node_children nd)) = 1).
Proof.
  intros (st' & Hinv & _ & _ & <- & -> & -> & _)%build_spec.
  pose proof (inv_wf _ _ _ Hinv) as Hwf.
  assert (∀ nd, nd ∈ heap st → NoDup (child_ids (heap st) nd)) as Hall.
  { intros nd [r Hnd]%list_elem_of_lookup.
    rewrite (children_of_node _ _ _ _ _ Hinv Hnd). apply distinct_NoDup. }
  split; [done|]. split.
  - intros depth r Hr. apply Hall.
    apply walk_in_heap in Hr; [|done|by intros page [? _]%roots_spec].
    destruct (lookup_lt_is_Some_2 _ _ Hr) as [nd Hnd].
    rewrite (deref_lookup _ _ _ Hnd). apply list_elem_of_lookup. eauto.
  - intros r nd s Hnd Hs.
    assert (nd ∈ heap st) as Hin by (apply list_elem_of_lookup; eauto).
    apply exactly_once; [apply (Hall _ Hin)|].
    fold (child_ids (heap st) nd).
    rewrite (children_of_node _ _ _ _ _ Hinv Hnd). apply distinct_elem.
    by apply (list_elem_of_fmap_2 page_id).
Qed.

Lemma C5_no_duplicate_children_witness :
  scenario3 = (scenario3.1, Returned ((result_of scenario3).1, (result_of scenario3).2)) ∧
  length (filter (λ c, id_of (heap (result_of scenario3).2) c = 2)
                 (node_children (mkNode 1 "A"%string [1]))) = 1.
Proof.
  assert (scenario3 = (scenario3.1, Returned ((result_of scenario3).1, (result_of scenario3).2)))
    as Hrun by (vm_compute; reflexivity).
  split; [exact Hrun|].
  refine (proj2 (proj2 (C5_no_duplicate_children _ _ _ _ _ _ Hrun))
            0 (mkNode 1 "A"%string [1]) B2 _ _).
  - vm_compute; reflexivity.
  - by_compute.
Defined.

(** C6. A page object is in the returned root array exactly when its id is
    no key of [childOfMap] once the queue has drained; the keys of
    [childOfMap] are the ids that some call listed as a child, so a page of
    [initialPages] that a call returns as a child is left out of the roots. *)
Theorem C6_root_iff_no_parent f fuel init calls roots st :
  buildPageTree f fuel init = (calls, Returned (roots, st)) →
  (∀ r, r ∈ roots ↔
        ∃ nd, heap st !! r = Some nd ∧ childOfMap st !! node_id nd = None) ∧
  (∀ c, is_Some (childOfMap st !! c) ↔
        ∃ p, p ∈ calls ∧ c ∈ map page_id (kids f p)) ∧
  (∀ s r nd p, s ∈ init → heap st !! r = Some nd → node_id nd = page_id s →
        p ∈ calls → page_id s ∈ map page_id (kids f p) → r ∉ roots).
Proof.
  intros (st' & Hinv & Hpre & _ & <- & -> & _ & _)%build_spec.
  pose proof (inv_wf _ _ _ Hinv) as Hwf.
  assert (∀ r, r ∈ rootPages st ↔
        ∃ nd, heap st !! r = Some nd ∧ childOfMap st !! node_id nd = None) as Hroots.
  { intros r. rewrite roots_spec by done. split.
    - intros [Hr Hnone]. destruct (lookup_lt_is_Some_2 _ _ Hr) as [nd Hnd].
      rewrite (id_of_lookup _ _ _ Hnd) in Hnone. eauto.
    - intros (nd & Hnd & Hnone). split; [by eapply lookup_lt_Some|].
      by rewrite (id_of_lookup _ _ _ Hnd). }
  assert (∀ c, is_Some (childOfMap st !! c) ↔
        ∃ p, p ∈ calls ∧ c ∈ map page_id (kids f p)) as Hkeys.
  { intros c. split.
    - intros [p Hp].
      destruct (parent_Some _ _ _ _ _ _ Hinv Hpre Hp) as (j & Hj & Hc & _).
      exists p. split; [|done]. apply list_elem_of_lookup. eauto.
    - intros (p & Hp & Hc).
      destruct (childOfMap st !! c) eqn:E; [done|].
      by destruct (proj1 (parent_None _ _ _ _ _ Hinv) E p Hp). }
  split; [done|]. split; [done|].
  intros s r nd p _ Hnd Hid Hp Hc. rewrite Hroots.
  intros (nd' & Hnd' & Hnone). assert (nd' = nd) as -> by congruence.
  rewrite Hid in Hnone.
  assert (is_Some (childOfMap st !! page_id s)) as [? ?] by (apply Hkeys; eauto).
  congruence.
Qed.

Lemma C6_root_iff_no_parent_witness :
  scenario2 = (scenario2.1, Returned ((result_of scenario2).1, (result_of scenario2).2)) ∧
  1 ∉ (result_of scenario2).1.
Proof.
  assert (scenario2 = (scenario2.1, Returned ((result_of scenario2).1, (result_of scenario2).2)))
    as Hrun by (vm_compute; reflexivity).
  split; [exact Hrun|].
  refine (proj2 (proj2 (C6_root_iff_no_parent _ _ _ _ _ _ Hrun))
            B2 1 (mkNode 2 "B"%string []) 1 _ _ _ _ _).
  - by_compute.
  - vm_compute; reflexivity.
  - reflexivity.
  - by_compute.
  - by_compute.
Defined.

(** C7. When a [fetchChildren] call rejects, the build ends there with that
    very error: the failing call is the last one in the log, its id was not
    called before (no retry), and the outcome is the thrown error, not a
    forest. *)
Theorem C7_fetch_failure_aborts f fuel init calls out j p e :
  buildPageTree f fuel init = (calls, out) →
  calls !! j = Some p → f p = Rejected e →
  out = Thrown e ∧ calls = take j calls ++ [p] ∧ p ∉ take j calls.
Proof.
  intros (st & Hinv & Hpre & _ & Hout)%build_spec Hj Hrej.
  assert (NoDup calls) as Hnd.
  { destruct Hpre as [t Ht].
    pose proof (wf_ids _ (inv_wf _ _ _ Hinv)) as Hids. rewrite Ht in Hids.
    by apply NoDup_app in Hids as [? _]. }
  assert (∀ l, Forall (λ q, f q = Resolved (kids f q)) l → p ∉ l) as Hres.
  { intros l Hl Hp. rewrite Forall_forall in Hl. specialize (Hl p Hp). congruence. }
  assert (p ∈ calls) as Hin by (apply list_elem_of_lookup; eauto).
  destruct out as [[roots st']|e'|].
  - destruct Hout as (_ & _ & _ & Hall). by destruct (Hres _ Hall).
  - destruct Hout as (before & q & -> & Hq & Hall).
    apply lookup_snoc_Some in Hj as [[_ Hj] | [-> ->]].
    + destruct (Hres _ Hall). apply list_elem_of_lookup. eauto.
    + rewrite take_app_length. split_and!; [congruence|done|].
      by apply NoDup_app in Hnd as (_ & Hnd & _); intros ?%Hnd; set_solver.
  - destruct Hout as (_ & _ & Hall). by destruct (Hres _ Hall).
Qed.

Lemma C7_fetch_failure_aborts_witness :
  failing_run = ([1; 2], Thrown "boom"%string) ∧
  (Thrown "boom"%string : outcome (list ref * state)) = Thrown "boom"%string ∧
  [1; 2] = take 1 [1; 2] ++ [2] ∧ 2 ∉ take 1 [1; 2].
Proof.
  assert (failing_run = ([1; 2], Thrown "boom"%string)) as Hrun
    by (vm_compute; reflexivity).
  split; [exact Hrun|].
  exact (C7_fetch_failure_aborts failing_fetch 10 [A1; B2] _ _ 1 2 "boom"%string
           Hrun eq_refl eq_refl).
Defined.

(** C8. The calls are issued one after the other in the order in which the
    ids were first seen: the log is an initial segment of the first
    appearances (all of them when the build returns), and the id of each
    call was brought in by seeding or by the result of an earlier call.
    The run is a function of [initialPages] and of the answers to the calls
    it makes: a second run whose remote gives the same answers to these
    calls makes the same calls and ends with the same outcome and forest. *)
Theorem C8_sequential_fifo_deterministic f g fuel init calls out :
  buildPageTree f fuel init = (calls, out) →
  (∀ p, p ∈ calls → g p = f p) →
  buildPageTree g fuel init = (calls, out) ∧
  calls `prefix_of` map page_id (first_seen (observed f init calls)) ∧
  (∀ res, out = Returned res →
          calls = map page_id (first_seen (observed f init calls))) ∧
  (∀ k p, calls !! k = Some p →
          p ∈ map page_id (init ++ concat (map (kids f) (take k calls)))).
Proof.
  intros E Hsame. split; [|].
  - unfold buildPageTree in *. rewrite (drain_ext f g); [done|].
    intros p Hp. apply Hsame.
    destruct (drain f fuel _ 0 []) as [c [st'|e|]]; by injection E as <- <-.
  - apply build_spec in E as (st & Hinv & Hpre & Hdisc & Hout).
    pose proof (inv_nodes _ _ _ Hinv) as Hnodes.
    fold (observed f init calls) in Hnodes.
    rewrite <-Hnodes, summary_ids. split; [done|]. split; [|done].
    intros [roots st'] ->. by destruct Hout as (_ & _ & ? & _).
Qed.

Lemma C8_sequential_fifo_deterministic_witness :
  scenario2 = ([1; 2], scenario2.2) ∧
  scenario2_other = ([1; 2], scenario2.2) ∧
  [1; 2] = map page_id (first_seen (observed (fetch_of [(1, [B2])]) [A1; B2] [1; 2])).
Proof.
  assert (scenario2 = ([1; 2], scenario2.2)) as Hrun by (vm_compute; reflexivity).
  assert (∀ p, p ∈ [1; 2] → fetch_of [(1, [B2]); (7, [C3])] p = fetch_of [(1, [B2])] p)
    as Hsame.
  { intros p [->|[->|[]%elem_of_nil]%elem_of_cons]%elem_of_cons; reflexivity. }
  pose proof (C8_sequential_fifo_deterministic _ _ _ _ _ _ Hrun Hsame)
    as (Hother & _ & Hfifo & _).
  split; [exact Hrun|]. split; [exact Hother|].
  apply (Hfifo (result_of scenario2)). vm_compute; reflexivity.
Defined.

(** C9. Every returned root comes from [initialPages]: an id that is not in
    [initialPages], met only as a fetched child, has its parent recorded in
    [childOfMap] and is not a root. *)
Theorem C9_roots_are_initial f fuel init calls roots st :
  buildPageTree f fuel init = (calls, Returned (roots, st)) →
  (∀ r, r ∈ roots →
     ∃ nd, heap st !! r = Some nd ∧ node_id nd ∈ map page_id init) ∧
  (∀ r nd, heap st !! r = Some nd → node_id nd ∉ map page_id init →
     is_Some (childOfMap st !! node_id nd) ∧ r ∉ roots).
Proof.
  intros (st' & Hinv & _ & _ & <- & -> & _ & _)%build_spec.
  pose proof (inv_wf _ _ _ Hinv) as Hwf.
  assert (∀ r nd, heap st !! r = Some nd →
            childOfMap st !! node_id nd = None → node_id nd ∈ map page_id init)
    as Hinit.
  { intros r nd Hnd Hnone.
    assert (node_id nd ∈ map page_id (init ++ concat (map (kids f) calls))) as Hobs.
    { eapply inv_ids_observed; [done|]. apply list_elem_of_lookup.
      exists r. by apply ids_lookup. }
    rewrite map_app in Hobs. apply elem_of_app in Hobs as [?|Hobs]; [done|].
    apply elem_of_kids in Hobs as (p & Hp & Hc).
    by destruct (proj1 (parent_None _ _ _ _ _ Hinv) Hnone p Hp). }
  split.
  - intros r [Hr Hnone]%roots_spec; [|done].
    destruct (lookup_lt_is_Some_2 _ _ Hr) as [nd Hnd].
    rewrite (id_of_lookup _ _ _ Hnd) in Hnone. eauto.
  - intros r nd Hnd Hnot.
    destruct (childOfMap st !! node_id nd) as [p|] eqn:E.
    + split; [done|]. intros [_ Hnone]%roots_spec; [|done].
      rewrite (id_of_lookup _ _ _ Hnd) in Hnone. congruence.
    + destruct Hnot. eauto.
Qed.

Lemma C9_roots_are_initial_witness :
  scenario2 = (scenario2.1, Returned ((result_of scenario2).1, (result_of scenario2).2)) ∧
  0 ∈ (result_of scenario2).1 ∧
  ∃ nd, heap (result_of scenario2).2 !! 0 = Some nd ∧ node_id nd ∈ map page_id [A1; B2].
Proof.
  assert (scenario2 = (scenario2.1, Returned ((result_of scenario2).1, (result_of scenario2).2)))
    as Hrun by (vm_compute; reflexivity).
  assert (0 ∈ (result_of scenario2).1) as Hroot by by_compute.
  split; [exact Hrun|]. split; [exact Hroot|].
  exact (proj1 (C9_roots_are_initial _ _ _ _ _ _ Hrun) 0 Hroot).
Defined.

(** C10. The page object of an id carries the id and title of the first
    summary observed with that id, in seeding or in child discovery; later
    summaries with the same id (repeated entries of [initialPages] included,
    which are seeded once) change nothing: every observed id has one object,
    and no two objects share an id. *)
Theorem C10_first_summary_kept f fuel init calls roots st :
  buildPageTree f fuel init = (calls, Returned (roots, st)) →
  (∀ nd, nd ∈ heap st →
     head (filter (λ s, page_id s = node_id nd) (observed f init calls))
     = Some (mkSummary (node_id nd) (node_title nd))) ∧
  (∀ s, s ∈ observed f init calls →
     ∃ nd, nd ∈ heap st ∧ node_id nd = page_id s) ∧
  NoDup (map node_id (heap st)).
Proof.
  intros (st' & Hinv & _ & _ & <- & _)%build_spec.
  pose proof (inv_nodes _ _ _ Hinv) as Hnodes. fold (observed f init calls) in Hnodes.
  split_and!.
  - intros nd Hnd.
    apply (first_seen_head _ (summary_of nd)).
    rewrite <-Hnodes. by apply (list_elem_of_fmap_2 summary_of).
  - intros s Hs.
    assert (page_id s ∈ map node_id (heap st)) as Hin.
    { rewrite <-summary_ids, Hnodes. apply first_seen_ids.
      by apply (list_elem_of_fmap_2 page_id). }
    apply list_elem_of_fmap in Hin as (nd & ? & ?). eauto.
  - apply wf_ids, (inv_wf _ _ _ Hinv).
Qed.

Lemma C10_first_summary_kept_witness :
  retitled_run = (retitled_run.1, Returned ((result_of retitled_run).1, (result_of retitled_run).2)) ∧
  map summary_of (heap (result_of retitled_run).2)
  = [mkSummary 1 "A"%string; mkSummary 2 "B"%string; mkSummary 3 "C"%string] ∧
  NoDup (map node_id (heap (result_of retitled_run).2)).
Proof.
  assert (retitled_run = (retitled_run.1, Returned ((result_of retitled_run).1, (result_of retitled_run).2)))
    as Hrun by (vm_compute; reflexivity).
  split; [exact Hrun|]. split; [vm_compute; reflexivity|].
  exact (proj2 (proj2 (C10_first_summary_kept _ _ _ _ _ _ Hrun))).
Defined.


(** * Further properties *)

(** ** Strings *)

Lemma append_cons x (a b : string) : String x a +++ b = String x (a +++ b).
Proof. reflexivity. Qed.

Lemma append_nil_l (a : string) : EmptyString +++ a = a.
Proof. reflexivity. Qed.

Lemma append_assoc (a b c : string) : (a +++ b) +++ c = a +++ b +++ c.
Proof.
  induction a as [|x a IH]; [done|]. rewrite !append_cons. by f_equal.
Qed.

Lemma append_nil_r (a : string) : a +++ EmptyString = a.
Proof. induction a as [|x a IH]; [done|]. rewrite append_cons. by f_equal. Qed.

Lemma chars_append (a b : string) : chars (a +++ b) = chars a ++ chars b.
Proof.
  induction a as [|x a IH]; [done|]. rewrite append_cons.
  unfold chars in *. simpl. by f_equal.
Qed.

(** ** sanitize *)

Lemma sanitize_from_clean str : ∀ in_run, clean (sanitize_from in_run str).
Proof.
  induction str as [|c rest IH]; intros in_run; simpl; [constructor|].
  destruct (forbidden c) eqn:Hc.
  - destruct in_run; [apply IH|]. constructor; [done|apply IH].
  - constructor; [done|apply IH].
Qed.

Lemma sanitize_from_id str : ∀ in_run,
  clean str → sanitize_from in_run str = str.
Proof.
  induction str as [|c rest IH]; intros in_run Hclean; simpl; [done|].
  apply Forall_cons in Hclean as [-> Hrest]. by rewrite IH.
Qed.

Lemma sanitize_from_length str : ∀ in_run,
  String.length (sanitize_from in_run str) ≤ String.length str.
Proof.
  induction str as [|c rest IH]; intros in_run; simpl; [done|].
  destruct (forbidden c); [destruct in_run|]; simpl;
    [specialize (IH true)|specialize (IH true)|specialize (IH false)]; lia.
Qed.

Lemma sanitize_from_append a : ∀ in_run b,
  sanitize_from in_run (a +++ b)
  = sanitize_from in_run a +++ sanitize_from (run_after in_run a) b.
Proof.
  induction a as [|c a IH]; intros in_run b; [done|].
  rewrite append_cons. simpl.
  destruct (forbidden c); [destruct in_run|]; rewrite ?append_cons; by rewrite IH.
Qed.

Lemma sanitize_from_run run : ∀ in_run,
  forbidden_run run →
  sanitize_from in_run run = (if in_run then EmptyString else "_"%string) ∧
  run_after in_run run = true.
Proof.
  induction run as [|c run IH]; intros in_run [Hne Hall]; [done|].
  apply Forall_cons in Hall as [Hc Hall]. simpl. rewrite Hc.
  destruct run as [|c' run'].
  - by destruct in_run.
  - destruct (IH true) as [-> ->]; [by split|]. by destruct in_run.
Qed.

(** X1. The file and folder name made from a title holds none of the characters
    that line 41 replaces. *)
Theorem sanitize_clean str : clean (sanitize str).
Proof. apply sanitize_from_clean. Qed.

(** X2. [sanitize] leaves a string as it is exactly when the string holds no
    forbidden character. *)
Theorem sanitize_fixes_clean str : sanitize str = str ↔ clean str.
Proof.
  split; [|apply sanitize_from_id].
  intros <-. apply sanitize_from_clean.
Qed.

(** X3. Sanitizing twice is sanitizing once ([fetchPageContent] hands out a
    sanitized title, and callers may sanitize it again). *)
Theorem sanitize_idempotent str : sanitize (sanitize str) = sanitize str.
Proof. apply sanitize_from_id, sanitize_from_clean. Qed.

(** X4. The name is never longer than the title. *)
Theorem sanitize_length str :
  String.length (sanitize str) ≤ String.length str.
Proof. apply sanitize_from_length. Qed.

(** X5. Titles that differ only in a run of forbidden characters get the same
    name, whatever the run's characters and length: distinct pages can
    collide on one folder. *)
Theorem sanitize_collides a run1 run2 b :
  forbidden_run run1 → forbidden_run run2 →
  sanitize (a +++ run1 +++ b) = sanitize (a +++ run2 +++ b).
Proof.
  intros H1 H2. unfold sanitize. rewrite !sanitize_from_append.
  destruct (sanitize_from_run run1 (run_after false a) H1) as [-> ->].
  by destruct (sanitize_from_run run2 (run_after false a) H2) as [-> ->].
Qed.

Lemma sanitize_collides_witness :
  forbidden_run "/"%string ∧ forbidden_run ":*?"%string ∧
  sanitize "a/b"%string = sanitize "a:*?b"%string.
Proof.
  assert (forbidden_run "/"%string) as H1 by (split; [done|by repeat constructor]).
  assert (forbidden_run ":*?"%string) as H2 by (split; [done|by repeat constructor]).
  split; [exact H1|]. split; [exact H2|].
  exact (sanitize_collides "a"%string _ _ "b"%string H1 H2).
Defined.

(** X6. A title that consists of forbidden characters only is named by a single
    underscore, whatever its length. *)
Theorem sanitize_run_is_underscore run :
  forbidden_run run → sanitize run = "_"%string.
Proof. intros Hrun. by destruct (sanitize_from_run run false Hrun). Qed.

Lemma sanitize_run_is_underscore_witness :
  forbidden_run "<?>"%string ∧ sanitize "<?>"%string = "_"%string.
Proof.
  assert (forbidden_run "<?>"%string) as Hrun by (split; [done|by repeat constructor]).
  split; [exact Hrun|]. exact (sanitize_run_is_underscore _ Hrun).
Defined.

(** ** extractFilename *)

Lemma split_nonempty sep str : split sep str ≠ [].
Proof.
  destruct str as [|c rest]; simpl; [done|].
  destruct (Ascii.eqb c sep); [done|]. by destruct (split sep rest).
Qed.

Lemma split_lacks sep str : lacks sep str → split sep str = [str].
Proof.
  induction str as [|c rest IH]; intros Hno; simpl; [done|].
  apply not_elem_of_cons in Hno as [Hc Hrest].
  destruct (Ascii.eqb_spec c sep) as [->|_]; [done|]. by rewrite IH.
Qed.

Lemma split_append sep a b :
  split sep (a +++ String sep b) = split sep a ++ split sep b.
Proof.
  induction a as [|c a IH]; [|rewrite append_cons]; simpl.
  - by rewrite Ascii.eqb_refl.
  - destruct (Ascii.eqb c sep); [by rewrite IH|]. rewrite IH.
    pose proof (split_nonempty sep a). by destruct (split sep a).
Qed.

Lemma last_split sep dir piece :
  lacks sep piece → last (split sep (dir +++ String sep piece)) = Some piece.
Proof.
  intros Hno. rewrite split_append, (split_lacks _ _ Hno). apply last_snoc.
Qed.

Lemma head_split sep name rest :
  lacks sep name → head (split sep (name +++ String sep rest)) = Some name.
Proof. intros Hno. by rewrite split_append, (split_lacks _ _ Hno). Qed.

Lemma extractFilename_last_piece decode dir piece :
  lacks "/"%char piece →
  extractFilename decode (dir +++ String "/"%char piece)
  = extractFilename decode piece.
Proof.
  intros Hno. unfold extractFilename.
  by rewrite last_split, (split_lacks _ _ Hno).
Qed.

Lemma lacks_query c name query :
  c ≠ "?"%char → lacks c name → lacks c query →
  lacks c (name +++ String "?"%char query).
Proof.
  intros Hc Hname Hquery. unfold lacks. rewrite chars_append.
  change (chars (String "?"%char query)) with ("?"%char :: chars query).
  rewrite elem_of_app, elem_of_cons. intros [?|[?|?]]; done.
Qed.

(** X7. Everything up to the last slash of the URL is ignored, a query that
    began before that slash included: the name is taken from the text after
    the last slash alone. *)
Theorem extractFilename_after_last_slash decode dir piece :
  lacks "/"%char piece →
  extractFilename decode (dir +++ String "/"%char piece)
  = extractFilename decode piece.
Proof. apply extractFilename_last_piece. Qed.

Lemma extractFilename_after_last_slash_witness :
  lacks "/"%char "b.png"%string ∧
  extractFilename Some "http://x/a?next=/b.png"%string
  = extractFilename Some "b.png"%string.
Proof.
  assert (lacks "/"%char "b.png"%string) as Hno by by_compute.
  split; [exact Hno|].
  exact (extractFilename_after_last_slash Some "http://x/a?next="%string _ Hno).
Defined.

(** X8. For a URL [dir/name?query] the query is dropped and the name is decoded;
    when decoding throws, the fallback name is returned. *)
Theorem extractFilename_drops_query decode dir name query :
  lacks "/"%char name → lacks "?"%char name → lacks "/"%char query →
  extractFilename decode (dir +++ String "/"%char (name +++ String "?"%char query))
  = default "unknown.png"%string (decode name).
Proof.
  intros Hslash Hquest Hquery.
  assert (lacks "/"%char (name +++ String "?"%char query)) as Hpiece
    by (by apply lacks_query).
  rewrite extractFilename_last_piece by done. unfold extractFilename.
  rewrite (split_lacks "/"%char) by done. simpl.
  rewrite head_split by done. simpl. by destruct (decode name).
Qed.

Lemma extractFilename_drops_query_witness :
  lacks "/"%char "a.png"%string ∧ lacks "?"%char "a.png"%string ∧
  lacks "/"%char "v=1"%string ∧
  extractFilename (λ _, None) "http://x/img/a.png?v=1"%string = "unknown.png"%string ∧
  extractFilename Some "http://x/img/a.png?v=1"%string = "a.png"%string.
Proof.
  assert (lacks "/"%char "a.png"%string) as H1 by by_compute.
  assert (lacks "?"%char "a.png"%string) as H2 by by_compute.
  assert (lacks "/"%char "v=1"%string) as H3 by by_compute.
  split; [exact H1|]. split; [exact H2|]. split; [exact H3|]. split.
  - exact (extractFilename_drops_query (λ _, None) "http://x/img"%string _ _ H1 H2 H3).
  - exact (extractFilename_drops_query Some "http://x/img"%string _ _ H1 H2 H3).
Defined.

(** ** generateHtmlList *)

Lemma contains_refl a : contains a a.
Proof. exists EmptyString, EmptyString. by rewrite append_nil_r. Qed.

Lemma contains_trans a b c : contains a b → contains b c → contains a c.
Proof.
  intros (p1 & q1 & ->) (p2 & q2 & ->).
  exists (p1 +++ p2), (q2 +++ q1). by rewrite !append_assoc.
Qed.

Lemma contains_append_l a b c : contains a c → contains (a +++ b) c.
Proof.
  intros (p & q & ->). exists p, (q +++ b). by rewrite !append_assoc.
Qed.

Lemma contains_append_r a b c : contains b c → contains (a +++ b) c.
Proof.
  intros (p & q & ->). exists (a +++ p), q. by rewrite !append_assoc.
Qed.

Lemma generateHtmlList_unfold depth h pages :
  generateHtmlList depth h pages
  = match foldl (item_step depth h) (Some "<ul>"%string) pages with
    | None => None
    | Some html => Some (html +++ "</ul>"%string)
    end.
Proof. by destruct depth. Qed.

Lemma item_step_item depth h html page :
  item_step depth h (Some html) page
  = match item_html depth h page with
    | None => None
    | Some it => Some (html +++ it)
    end.
Proof.
  unfold item_step, item_html.
  destruct (node_children (deref h page)); [by rewrite append_assoc|].
  destruct depth as [|d]; [done|].
  destruct (generateHtmlList d h _); [|done]. by rewrite !append_assoc.
Qed.

Lemma item_step_None depth h pages : foldl (item_step depth h) None pages = None.
Proof. by induction pages. Qed.

Lemma foldl_item_step depth h pages : ∀ html,
  foldl (item_step depth h) (Some html) pages
  = match items_html depth h pages with
    | None => None
    | Some body => Some (html +++ body)
    end.
Proof.
  induction pages as [|page rest IH]; intros html; cbn [foldl items_html].
  - by rewrite append_nil_r.
  - rewrite item_step_item. destruct (item_html depth h page) as [it|].
    + rewrite IH. destruct (items_html depth h rest); [|done].
      by rewrite append_assoc.
    + apply item_step_None.
Qed.

(** The list is the items of the pages between [<ul>] and [</ul>]. *)
Lemma generateHtmlList_items depth h pages :
  generateHtmlList depth h pages
  = match items_html depth h pages with
    | None => None
    | Some body => Some ("<ul>"%string +++ body +++ "</ul>"%string)
    end.
Proof.
  rewrite generateHtmlList_unfold, foldl_item_step.
  destruct (items_html depth h pages); [|done]. by rewrite append_assoc.
Qed.

Lemma items_is_Some depth h pages :
  is_Some (items_html depth h pages) ↔
  ∀ page, page ∈ pages → is_Some (item_html depth h page).
Proof.
  induction pages as [|page rest IH]; cbn [items_html].
  - split; [by intros _ ? ?%elem_of_nil|done].
  - split.
    + intros Hsome p [->|Hp]%elem_of_cons.
      * by destruct (item_html depth h page); [|destruct Hsome].
      * apply IH; [|done].
        destruct (item_html depth h page); [|by destruct Hsome].
        by destruct (items_html depth h rest); [|destruct Hsome].
    + intros Hall. destruct (Hall page) as [it ->]; [left|].
      destruct (proj2 IH) as [more ->]; [|done].
      intros p Hp. apply Hall. by right.
Qed.

Lemma generateHtmlList_is_Some depth h pages :
  is_Some (generateHtmlList depth h pages) ↔
  ∀ page, page ∈ pages → is_Some (item_html depth h page).
Proof.
  rewrite <-items_is_Some, generateHtmlList_items.
  by destruct (items_html depth h pages); split; intros [? ?].
Qed.

Lemma item_is_Some depth h page :
  is_Some (item_html depth h page) ↔
  node_children (deref h page) = [] ∨
  ∃ d, depth = S d ∧ is_Some (generateHtmlList d h (node_children (deref h page))).
Proof.
  unfold item_html. destruct (node_children (deref h page)) as [|c cs].
  - split; [by left|done].
  - destruct depth as [|d].
    + split; [by intros [? ?]|]. by intros [?|(d & ? & _)].
    + split.
      * intros Hsome. right. exists d. split; [done|].
        by destruct (generateHtmlList d h (c :: cs)); [|destruct Hsome].
      * intros [?|(d' & [= <-] & [sub ->])]; done.
Qed.

Lemma walk_nil d h : forest_walk d h [] = [].
Proof. by destruct d. Qed.

Lemma items_contains depth h pages : ∀ body page,
  items_html depth h pages = Some body → page ∈ pages →
  ∃ it, item_html depth h page = Some it ∧ contains body it.
Proof.
  induction pages as [|p rest IH]; intros body page; cbn [items_html];
    [by intros _ ?%elem_of_nil|].
  destruct (item_html depth h p) as [it|] eqn:Hit; [|done].
  destruct (items_html depth h rest) as [more|]; [|done].
  intros [= <-] [->|Hin]%elem_of_cons.
  - exists it. split; [done|]. apply contains_append_l, contains_refl.
  - destruct (IH more page eq_refl Hin) as (it' & ? & ?).
    exists it'. split; [done|]. by apply contains_append_r.
Qed.

Lemma generateHtmlList_contains_item depth h pages html page :
  generateHtmlList depth h pages = Some html → page ∈ pages →
  ∃ it, item_html depth h page = Some it ∧ contains html it.
Proof.
  rewrite generateHtmlList_items.
  destruct (items_html depth h pages) as [body|] eqn:Hbody; [|done].
  intros [= <-] Hin.
  destruct (items_contains _ _ _ _ _ Hbody Hin) as (it & ? & ?).
  exists it. split; [done|]. by apply contains_append_r, contains_append_l.
Qed.

Lemma item_contains_open depth h page it :
  item_html depth h page = Some it → contains it (item_open (deref h page)).
Proof.
  unfold item_html. destruct (node_children (deref h page)).
  - intros [= <-]. apply contains_append_l, contains_refl.
  - destruct depth as [|d]; [done|].
    destruct (generateHtmlList d h _); [|done].
    intros [= <-]. apply contains_append_l, contains_refl.
Qed.

Lemma item_contains_list depth h page it :
  item_html depth h page = Some it → node_children (deref h page) ≠ [] →
  ∃ d sub, depth = S d ∧
           generateHtmlList d h (node_children (deref h page)) = Some sub ∧
           contains it sub.
Proof.
  unfold item_html. destruct (node_children (deref h page)) as [|c cs]; [done|].
  destruct depth as [|d]; [done|].
  destruct (generateHtmlList d h (c :: cs)) as [sub|] eqn:Hsub; [|done].
  intros [= <-] _. exists d, sub. split; [done|]. split; [done|].
  apply contains_append_r, contains_append_l, contains_refl.
Qed.

(** The item of every page met by the walk is inside the list. *)
Lemma generateHtmlList_covers h r : ∀ k depth pages html,
  generateHtmlList depth h pages = Some html →
  r ∈ forest_walk k h pages →
  contains html (item_open (deref h r)).
Proof.
  induction k as [|k IH]; intros depth pages html Hgen; [by intros ?%elem_of_nil|].
  intros (page & Hpage & Hr)%elem_of_walk.
  destruct (generateHtmlList_contains_item _ _ _ _ _ Hgen Hpage) as (it & Hit & Hin).
  destruct Hr as [->|Hr].
  - eapply contains_trans; [done|]. by eapply item_contains_open.
  - destruct (item_contains_list _ _ _ _ Hit) as (d & sub & _ & Hsub & Hin').
    { intros Hnil. rewrite Hnil, walk_nil in Hr. by apply elem_of_nil in Hr. }
    eapply contains_trans; [done|]. eapply contains_trans; [done|].
    by eapply IH.
Qed.

(** A page below the pages rendered needs one level of the stack less. *)
Lemma generateHtmlList_descends h r : ∀ k depth pages,
  is_Some (generateHtmlList depth h pages) →
  r ∈ forest_walk k h pages → node_children (deref h r) ≠ [] →
  ∃ d, d < depth ∧ is_Some (generateHtmlList d h (node_children (deref h r))).
Proof.
  induction k as [|k IH]; intros depth pages Hgen; [by intros ?%elem_of_nil|].
  intros (page & Hpage & Hr)%elem_of_walk Hkids.
  pose proof (proj1 (generateHtmlList_is_Some _ _ _) Hgen page Hpage) as Hitem.
  apply item_is_Some in Hitem. destruct Hr as [->|Hr].
  - destruct Hitem as [?|(d & -> & ?)]; [done|]. exists d. split; [lia|done].
  - destruct Hitem as [Hnil|(d & -> & Hsub)].
    { rewrite Hnil, walk_nil in Hr. by apply elem_of_nil in Hr. }
    destruct (IH d _ Hsub Hr Hkids) as (d' & ? & ?). exists d'. split; [lia|done].
Qed.

Lemma items_more_depth h d d' :
  (∀ page it, item_html d h page = Some it → item_html d' h page = Some it) →
  ∀ pages body, items_html d h pages = Some body →
                items_html d' h pages = Some body.
Proof.
  intros Hitem. induction pages as [|p rest IH]; intros body; cbn [items_html];
    [done|].
  destruct (item_html d h p) as [it|] eqn:Hit; [|done].
  rewrite (Hitem _ _ Hit).
  destruct (items_html d h rest) as [more|]; [|done].
  by rewrite (IH more eq_refl).
Qed.

(** A larger stack gives the same list. *)
Lemma generateHtmlList_more_depth h : ∀ depth pages html,
  generateHtmlList depth h pages = Some html →
  generateHtmlList (S depth) h pages = Some html.
Proof.
  assert (∀ d d' pages html,
            (∀ page it, item_html d h page = Some it →
                        item_html d' h page = Some it) →
            generateHtmlList d h pages = Some html →
            generateHtmlList d' h pages = Some html) as Hlift.
  { intros d d' pages html Hitem. rewrite !generateHtmlList_items.
    destruct (items_html d h pages) as [body|] eqn:Hbody; [|done].
    by rewrite (items_more_depth _ _ _ Hitem _ _ Hbody). }
  induction depth as [|d IH]; intros pages html; apply Hlift.
  - intros page it. unfold item_html.
    by destruct (node_children (deref h page)).
  - intros page it. unfold item_html.
    destruct (node_children (deref h page)) as [|c cs]; [done|].
    destruct (generateHtmlList d h (c :: cs)) as [sub|] eqn:Hsub; [|done].
    by rewrite (IH _ _ Hsub).
Qed.

Lemma generateHtmlList_deeper h depth depth' pages html :
  depth ≤ depth' →
  generateHtmlList depth h pages = Some html →
  generateHtmlList depth' h pages = Some html.
Proof.
  induction 1 as [|d' _ IH]; [done|].
  intros Hgen. by apply generateHtmlList_more_depth, IH.
Qed.

(** Where every child has a larger rank than its parent, the recursion is no
    deeper than the heap has objects. *)
Lemma generateHtmlList_returns_by_rank h (rank : PageId → nat) :
  (∀ r nd c, h !! r = Some nd → c ∈ node_children nd →
             c < length h ∧ rank (id_of h r) < rank (id_of h c)) →
  ∀ pages, (∀ page, page ∈ pages → page < length h) →
           is_Some (generateHtmlList (length h) h pages).
Proof.
  intros Hedge.
  set (above r := length (filter (λ x, rank (id_of h r) < rank (id_of h x))
                                 (seq 0 (length h)))).
  assert (∀ m pages, (∀ page, page ∈ pages → page < length h ∧ above page ≤ m) →
            is_Some (generateHtmlList m h pages)) as Hby.
  { induction m as [|m IH]; intros pages Hpages;
      apply generateHtmlList_is_Some; intros page Hpage;
      destruct (Hpages page Hpage) as [Hlt Habove];
      destruct (lookup_lt_is_Some_2 _ _ Hlt) as [nd Hnd];
      apply item_is_Some; rewrite (deref_lookup _ _ _ Hnd);
      destruct (node_children nd) as [|c cs] eqn:Hcs; try (by left);
      assert (∀ x, x ∈ c :: cs → x < length h ∧ above x < above page) as Hkids.
    1, 3: intros x Hx; rewrite <-Hcs in Hx;
      destruct (Hedge _ _ _ Hnd Hx) as [Hxlt Hrank]; (split; [done|]);
      apply (filter_length_strict _ _ _ x); [lia|apply elem_of_seq; lia|done|lia].
    - destruct (Hkids c) as [_ ?]; [left|]. lia.
    - right. exists m. split; [done|]. apply IH. intros x Hx.
      destruct (Hkids x Hx). split; [done|lia]. }
  intros pages Hpages. apply Hby. intros page Hpage.
  split; [by apply Hpages|].
  assert (above page < length (seq 0 (length h))) as Hlt.
  { apply (length_filter_lt _ _ page); [|lia].
    apply elem_of_seq. specialize (Hpages _ Hpage). lia. }
  rewrite length_seq in Hlt. lia.
Qed.

(** In a build that returned, children have larger ranks than the page that
    lists them, for any rank that grows along the fetched edges. *)
Lemma build_edges_ranked f init st (rank : PageId → nat) r nd c :
  inv init st (map (kids f) (map node_id (heap st))) →
  (∀ p s, p ∈ map node_id (heap st) → s ∈ kids f p → rank p < rank (page_id s)) →
  heap st !! r = Some nd → c ∈ node_children nd →
  c < length (heap st) ∧ rank (id_of (heap st) r) < rank (id_of (heap st) c).
Proof.
  intros Hinv Hrank Hnd Hc. split.
  - eapply wf_refs; [apply (inv_wf _ _ _ Hinv)| |done].
    apply list_elem_of_lookup. eauto.
  - pose proof (child_listed _ _ _ _ _ _ Hinv Hnd Hc) as Hlisted.
    apply list_elem_of_fmap in Hlisted as (s & -> & Hs).
    rewrite (id_of_lookup _ _ _ Hnd). apply Hrank; [|done].
    apply list_elem_of_lookup. exists r. by apply ids_lookup.
Qed.

(** X9. When [generateHtmlList] returns, the list holds the item of every page
    the walk of the forest meets, at whatever depth: the link to
    [./T/T.html] with [T] the sanitized title, followed by the title as it
    is (the title is not escaped). *)
Theorem generateHtmlList_lists_walk depth h pages html k r :
  generateHtmlList depth h pages = Some html →
  r ∈ forest_walk k h pages →
  contains html
    ("<li><a href="%string
     +++ String dquote (link_of (sanitize (node_title (deref h r))))
     +++ String dquote ">"%string +++ node_title (deref h r) +++ "</a>"%string).
Proof. intros Hgen Hr. by eapply generateHtmlList_covers. Qed.

Lemma generateHtmlList_lists_walk_witness :
  generateHtmlList 2 titled_heap [0] = Some titled_html ∧
  1 ∈ forest_walk 2 titled_heap [0] ∧
  contains titled_html
    ("<li><a href="%string +++ String dquote "./_b_/_b_.html"%string
     +++ String dquote "><b></a>"%string).
Proof.
  assert (generateHtmlList 2 titled_heap [0] = Some titled_html) as Hgen
    by (vm_compute; reflexivity).
  assert (1 ∈ forest_walk 2 titled_heap [0]) as Hr by by_compute.
  split; [exact Hgen|]. split; [exact Hr|].
  exact (generateHtmlList_lists_walk 2 _ [0] _ 2 1 Hgen Hr).
Defined.

(** X10. A page that is among its own descendants makes the recursion endless:
    when the walk of the pages meets such a page, [generateHtmlList] returns
    for no stack depth.  [buildPageTree] builds such forests from cyclic
    child data. *)
Theorem generateHtmlList_overflows_on_cycle h pages k k' r :
  r ∈ forest_walk k h pages →
  r ∈ forest_walk k' h (node_children (deref h r)) →
  ∀ depth, generateHtmlList depth h pages = None.
Proof.
  intros Hr Hloop.
  assert (node_children (deref h r) ≠ []) as Hkids.
  { intros Hnil. rewrite Hnil, walk_nil in Hloop. by apply elem_of_nil in Hloop. }
  assert (∀ depth, ¬ is_Some (generateHtmlList depth h (node_children (deref h r))))
    as Hnever.
  { intros depth. induction depth as [depth IH] using lt_wf_ind. intros Hsome.
    destruct (generateHtmlList_descends _ _ _ _ _ Hsome Hloop Hkids) as (d & Hd & Hsub).
    by apply (IH d Hd). }
  intros depth. destruct (generateHtmlList depth h pages) as [html|] eqn:Hgen; [|done].
  destruct (generateHtmlList_descends h r k depth pages) as (d & _ & Hsub);
    [by rewrite Hgen|done|done|].
  by destruct (Hnever d).
Qed.

Lemma generateHtmlList_overflows_on_cycle_witness :
  looping_run = ([1; 2], Returned ((result_of looping_run).1, (result_of looping_run).2)) ∧
  1 ∈ forest_walk 2 (heap (result_of looping_run).2) (result_of looping_run).1 ∧
  1 ∈ forest_walk 1 (heap (result_of looping_run).2)
        (node_children (deref (heap (result_of looping_run).2) 1)) ∧
  ∀ depth, generateHtmlList depth (heap (result_of looping_run).2)
             (result_of looping_run).1 = None.
Proof.
  split; [vm_compute; reflexivity|].
  assert (1 ∈ forest_walk 2 (heap (result_of looping_run).2) (result_of looping_run).1)
    as Hr by by_compute.
  assert (1 ∈ forest_walk 1 (heap (result_of looping_run).2)
            (node_children (deref (heap (result_of looping_run).2) 1)))
    as Hloop by by_compute.
  split; [exact Hr|]. split; [exact Hloop|].
  exact (generateHtmlList_overflows_on_cycle _ _ _ _ _ Hr Hloop).
Defined.

(** X11. Build, then render.  For a build that returned over acyclic child data,
    [generateHtmlList] on the returned roots returns, with a stack no deeper
    than the number of page objects and the same list for any deeper stack,
    and the list holds the item of the page object of every id the build
    observed. *)
Theorem index_lists_every_page f fuel init calls roots st :
  buildPageTree f fuel init = (calls, Returned (roots, st)) →
  acyclic_on f calls →
  ∃ html,
    (∀ depth, length (heap st) ≤ depth →
              generateHtmlList depth (heap st) roots = Some html) ∧
    ∀ s, s ∈ observed f init calls →
         ∃ nd, nd ∈ heap st ∧ node_id nd = page_id s ∧
               contains html (item_open nd).
Proof.
  intros (st' & Hinv & _ & _ & <- & -> & -> & _)%build_spec Hacyclic.
  pose proof (inv_wf _ _ _ Hinv) as Hwf.
  pose proof Hacyclic as [rank Hrank].
  destruct (generateHtmlList_returns_by_rank (heap st) rank) with (pages := rootPages st)
    as [html Hhtml].
  { intros r nd c. by apply (build_edges_ranked f init). }
  { by intros page [? _]%roots_spec. }
  exists html. split.
  - intros depth Hdepth. by eapply generateHtmlList_deeper.
  - intros s Hs.
    assert (page_id s ∈ map node_id (heap st)) as Hin.
    { eapply inv_ids_observed; [done|]. by apply (list_elem_of_fmap_2 page_id). }
    apply list_elem_of_lookup in Hin as [r Hr].
    change (map node_id (heap st)) with (node_id <$> heap st) in Hr.
    apply list_lookup_fmap_Some in Hr as (nd & Hid & Hnd).
    exists nd. split; [apply list_elem_of_lookup; eauto|]. split; [done|].
    rewrite <-(deref_lookup _ _ _ Hnd).
    eapply generateHtmlList_covers; [done|].
    eapply forest_covers; [done..|]. by eapply lookup_lt_Some.
Qed.

Lemma index_lists_every_page_witness :
  scenario4 = ([1; 2; 3], Returned ((result_of scenario4).1, (result_of scenario4).2)) ∧
  ∃ html,
    (∀ depth, length (heap (result_of scenario4).2) ≤ depth →
       generateHtmlList depth (heap (result_of scenario4).2) (result_of scenario4).1
       = Some html) ∧
    ∀ s, s ∈ observed (fetch_of [(1, [C3]); (2, [C3])]) [A1; B2] [1; 2; 3] →
         ∃ nd, nd ∈ heap (result_of scenario4).2 ∧ node_id nd = page_id s ∧
               contains html (item_open nd).
Proof.
  assert (scenario4 = ([1; 2; 3], Returned ((result_of scenario4).1, (result_of scenario4).2)))
    as Hrun by (vm_compute; reflexivity).
  split; [exact Hrun|].
  exact (index_lists_every_page _ _ _ _ _ _ Hrun scenario4_acyclic).
Defined.

(** ** More about buildPageTree *)

Lemma first_seen_app a b :
  ∃ extra, first_seen (a ++ b) = first_seen a ++ extra ∧
           ∀ s, s ∈ extra → page_id s ∉ map page_id a.
Proof.
  induction b as [|x b (extra & Heq & Hnew)] using rev_ind.
  - exists []. rewrite !app_nil_r. split; [done|]. by intros s ?%elem_of_nil.
  - rewrite app_assoc, first_seen_snoc. unfold register_summary.
    case_bool_decide as Hx; [by exists extra|].
    exists (extra ++ [x]). rewrite Heq, app_assoc. split; [done|].
    intros s [Hs| ->%list_elem_of_singleton]%elem_of_app; [by apply Hnew|].
    intros Hin. apply Hx. rewrite Heq, map_app, elem_of_app. left.
    by apply first_seen_ids.
Qed.

Lemma map_filter_comm {A B} (g : A → B) (P : B → Prop)
    `{!∀ y, Decision (P y)} (l : list A) :
  map g (filter (λ x, P (g x)) l) = filter P (map g l).
Proof.
  induction l as [|x l IH]; [done|]. simpl.
  rewrite (filter_cons (λ x, P (g x))), (filter_cons P).
  destruct (decide (P (g x))); simpl; by rewrite IH.
Qed.

Lemma ids_of_refs h : map (id_of h) (seq 0 (length h)) = map node_id h.
Proof.
  apply list_eq. intros i.
  change (map ?g ?l) with (g <$> l). rewrite !list_lookup_fmap.
  destruct (h !! i) as [nd|] eqn:Hnd; simpl.
  - rewrite lookup_seq_lt by (by eapply lookup_lt_Some). simpl.
    by rewrite (id_of_lookup _ _ _ Hnd).
  - by rewrite lookup_seq_ge by (by apply lookup_ge_None).
Qed.

(** X12. Each page object's children are the distinct ids that its fetch
    returned, in the order of their first occurrence in the result. *)
Theorem children_follow_fetch f fuel init calls roots st r nd :
  buildPageTree f fuel init = (calls, Returned (roots, st)) →
  heap st !! r = Some nd →
  child_ids (heap st) nd = distinct (map page_id (kids f (node_id nd))).
Proof.
  intros (st' & Hinv & _ & _ & <- & -> & -> & _)%build_spec Hnd.
  by eapply children_of_node.
Qed.

Lemma children_follow_fetch_witness :
  scenario3_mixed
  = ([1; 2; 3], Returned ((result_of scenario3_mixed).1, (result_of scenario3_mixed).2)) ∧
  child_ids (heap (result_of scenario3_mixed).2) (mkNode 1 "A"%string [1; 2]) = [2; 3].
Proof.
  assert (scenario3_mixed
          = ([1; 2; 3], Returned ((result_of scenario3_mixed).1, (result_of scenario3_mixed).2)))
    as Hrun by (vm_compute; reflexivity).
  split; [exact Hrun|].
  exact (children_follow_fetch _ _ _ _ _ _ 0 (mkNode 1 "A"%string [1; 2]) Hrun eq_refl).
Defined.

(** X13. The returned roots are, in the order in which their ids first appear in
    [initialPages], the listed pages without an entry in [childOfMap]. *)
Theorem roots_follow_listing f fuel init calls roots st :
  buildPageTree f fuel init = (calls, Returned (roots, st)) →
  map (id_of (heap st)) roots
  = filter (λ i, childOfMap st !! i = None) (map page_id (first_seen init)).
Proof.
  intros (st' & Hinv & _ & _ & <- & -> & -> & _)%build_spec.
  pose proof (inv_wf _ _ _ Hinv) as Hwf.
  unfold rootPages. rewrite (wf_pageMap _ Hwf), registry_values.
  assert (map (id_of (heap st))
            (filter (λ page, childOfMap st !! id_of (heap st) page = None)
                    (seq 0 (length (heap st))))
          = filter (λ i, childOfMap st !! i = None)
                   (map (id_of (heap st)) (seq 0 (length (heap st))))) as ->
    by exact (map_filter_comm (id_of (heap st))
                (λ i : PageId, childOfMap st !! i = (None : option PageId))
                (seq 0 (length (heap st)))).
  rewrite ids_of_refs, <-summary_ids, (inv_nodes _ _ _ Hinv).
  destruct (first_seen_app init (concat (map (kids f) (map node_id (heap st)))))
    as (extra & Heq & Hnew).
  rewrite Heq, map_app, filter_app.
  rewrite (filter_none _ (map page_id extra)), app_nil_r; [done|].
  intros i (s & -> & Hs)%list_elem_of_fmap Hnone.
  assert (page_id s ∈ map page_id
            (init ++ concat (map (kids f) (map node_id (heap st))))) as Hobs.
  { apply first_seen_ids. rewrite Heq, map_app, elem_of_app. right.
    by apply (list_elem_of_fmap_2 page_id). }
  rewrite map_app in Hobs. apply elem_of_app in Hobs as [Hinit|Hkid].
  - by apply (Hnew s Hs).
  - apply elem_of_kids in Hkid as (p & Hp & Hc).
    by apply (proj1 (parent_None _ _ _ _ _ Hinv) Hnone p Hp).
Qed.

Lemma roots_follow_listing_witness :
  scenario2 = ([1; 2], Returned ((result_of scenario2).1, (result_of scenario2).2)) ∧
  map (id_of (heap (result_of scenario2).2)) (result_of scenario2).1
  = filter (λ i, childOfMap (result_of scenario2).2 !! i = None)
           (map page_id (first_seen [A1; B2])).
Proof.
  assert (scenario2 = ([1; 2], Returned ((result_of scenario2).1, (result_of scenario2).2)))
    as Hrun by (vm_compute; reflexivity).
  split; [exact Hrun|].
  exact (roots_follow_listing _ _ _ _ _ _ Hrun).
Defined.



(** ** Tree-shaped child data *)

Lemma flat_map_bind {A B} (g : A → list B) (l : list A) : flat_map g l = l ≫= g.
Proof. induction l as [|x l IH]; [done|]. simpl. by rewrite IH. Qed.

Lemma walk_cons d h page pages :
  forest_walk (S d) h (page :: pages)
  = (page :: forest_walk d h (node_children (deref h page)))
    ++ forest_walk (S d) h pages.
Proof. done. Qed.

(** The pages of the walk below the first level are the children of the
    pages one level less deep. *)
Lemma walk_levels h : ∀ d pages,
  forest_walk (S d) h pages
  ≡ₚ pages ++ (forest_walk d h pages ≫= λ r, node_children (deref h r)).
Proof.
  induction d as [|d IHd]; intros pages.
  - induction pages as [|p ps IH]; [done|].
    rewrite walk_cons. simpl. simpl in IH. by rewrite IH.
  - induction pages as [|p ps IH]; [done|].
    rewrite !walk_cons, bind_app, bind_cons, IH, (IHd (node_children (deref h p))).
    cbn [app]. constructor. apply Permutation_app_swap_app.
Qed.

(** A root is in no children array. *)
Lemma root_not_child f init st r j nd :
  inv init st (map (kids f) (map node_id (heap st))) →
  r ∈ rootPages st → heap st !! j = Some nd → r ∉ node_children nd.
Proof.
  intros Hinv [Hr Hnone]%roots_spec Hnd Hin; [|apply (inv_wf _ _ _ Hinv)].
  pose proof (child_listed _ _ _ _ _ _ Hinv Hnd Hin) as Hlisted.
  apply (proj1 (parent_None _ _ _ _ _ Hinv) Hnone (node_id nd)); [|done].
  apply list_elem_of_lookup. exists j. by apply ids_lookup.
Qed.

(** With one listing parent per id the walk meets no page twice. *)
Lemma walk_NoDup f init st :
  inv init st (map (kids f) (map node_id (heap st))) →
  single_parent f (map node_id (heap st)) →
  ∀ d, NoDup (forest_walk d (heap st) (rootPages st)).
Proof.
  intros Hinv Hsingle. pose proof (inv_wf _ _ _ Hinv) as Hwf.
  assert (∀ d x, x ∈ forest_walk d (heap st) (rootPages st) →
            ∃ nd, heap st !! x = Some nd ∧ deref (heap st) x = nd) as Hvalid.
  { intros d x Hx. apply walk_in_heap in Hx; [|done|by intros page [? _]%roots_spec].
    destruct (lookup_lt_is_Some_2 _ _ Hx) as [nd Hnd].
    exists nd. split; [done|by apply deref_lookup]. }
  induction d as [|d IH]; [constructor|].
  rewrite walk_levels. apply NoDup_app. split_and!.
  - by apply roots_NoDup.
  - intros r Hr (x & Hin & Hx)%list_elem_of_bind.
    destruct (Hvalid _ _ Hx) as (nd & Hnd & Hderef). rewrite Hderef in Hin.
    by eapply root_not_child.
  - apply NoDup_bind; [| |done].
    + intros x1 x2 c Hx1 Hx2 Hc1 Hc2.
      destruct (Hvalid _ _ Hx1) as (nd1 & Hnd1 & Hd1). rewrite Hd1 in Hc1.
      destruct (Hvalid _ _ Hx2) as (nd2 & Hnd2 & Hd2). rewrite Hd2 in Hc2.
      eapply ref_unique; [done|by eapply lookup_lt_Some..|].
      rewrite (id_of_lookup _ _ _ Hnd1), (id_of_lookup _ _ _ Hnd2).
      eapply (Hsingle _ _ (id_of (heap st) c)).
      * apply list_elem_of_lookup. exists x1. by apply ids_lookup.
      * apply list_elem_of_lookup. exists x2. by apply ids_lookup.
      * by eapply child_listed.
      * by eapply child_listed.
    + intros x Hx. destruct (Hvalid _ _ Hx) as (nd & Hnd & ->).
      apply (NoDup_fmap_1 (id_of (heap st))).
      change (NoDup (child_ids (heap st) nd)).
      rewrite (children_of_node _ _ _ _ _ Hinv Hnd). apply distinct_NoDup.
Qed.

(** X15. On the data of a well-formed space, where the fetched edges have no
    cycle and no page is listed under two parents, the walk of the returned
    forest meets the page of every observed id exactly once. *)
Theorem tree_pages_occur_once f fuel init calls roots st s depth :
  buildPageTree f fuel init = (calls, Returned (roots, st)) →
  acyclic_on f calls → single_parent f calls →
  s ∈ observed f init calls → length (heap st) ≤ depth →
  occurrences depth (heap st) roots (page_id s) = 1.
Proof.
  intros (st' & Hinv & _ & _ & <- & -> & -> & _)%build_spec Hacyclic Hsingle Hs Hdepth.
  pose proof (inv_wf _ _ _ Hinv) as Hwf.
  assert (page_id s ∈ map node_id (heap st)) as Hin.
  { eapply inv_ids_observed; [done|]. by apply (list_elem_of_fmap_2 page_id). }
  apply list_elem_of_lookup in Hin as [r Hr].
  change (map node_id (heap st)) with (node_id <$> heap st) in Hr.
  apply list_lookup_fmap_Some in Hr as (nd & Hid & Hnd).
  assert (r ∈ forest_walk depth (heap st) (rootPages st)) as Hmet.
  { eapply walk_mono_le; [done|].
    eapply forest_covers; [done..|]. by eapply lookup_lt_Some. }
  unfold occurrences. apply exactly_once.
  - apply NoDup_fmap_2_strong; [|by eapply walk_NoDup].
    intros x y Hx Hy Hxy. eapply ref_unique; [done| | |done];
      (eapply walk_in_heap; [done| |done]); by intros page [? _]%roots_spec.
  - rewrite Hid, <-(id_of_lookup _ _ _ Hnd).
    by apply (list_elem_of_fmap_2 (id_of (heap st))).
Qed.

Lemma scenario2_single_parent : single_parent (fetch_of [(1, [B2])]) [1; 2].
Proof.
  intros p1 p2 c
    [->|[->|[]%elem_of_nil]%elem_of_cons]%elem_of_cons
    [->|[->|[]%elem_of_nil]%elem_of_cons]%elem_of_cons H1 H2;
    unfold kids, fetch_of in H1, H2; simpl in H1, H2;
    (done || by apply elem_of_nil in H1 || by apply elem_of_nil in H2).
Qed.

Lemma scenario2_acyclic : acyclic_on (fetch_of [(1, [B2])]) [1; 2].
Proof.
  exists (λ i, i).
  intros p s [->|[->|[]%elem_of_nil]%elem_of_cons]%elem_of_cons Hs;
    unfold kids, fetch_of in Hs; simpl in Hs.
  - apply list_elem_of_singleton in Hs as ->. simpl. lia.
  - by apply elem_of_nil in Hs.
Qed.

Lemma tree_pages_occur_once_witness :
  scenario2 = ([1; 2], Returned ((result_of scenario2).1, (result_of scenario2).2)) ∧
  B2 ∈ observed (fetch_of [(1, [B2])]) [A1; B2] [1; 2] ∧
  length (heap (result_of scenario2).2) ≤ 5 ∧
  occurrences 5 (heap (result_of scenario2).2) (result_of scenario2).1 2 = 1.
Proof.
  assert (scenario2 = ([1; 2], Returned ((result_of scenario2).1, (result_of scenario2).2)))
    as Hrun by (vm_compute; reflexivity).
  assert (B2 ∈ observed (fetch_of [(1, [B2])]) [A1; B2] [1; 2]) as Hobs by by_compute.
  assert (length (heap (result_of scenario2).2) ≤ 5) as Hdepth by (vm_compute; lia).
  split; [exact Hrun|]. split; [exact Hobs|]. split; [exact Hdepth|].
  exact (tree_pages_occur_once _ _ _ _ _ _ B2 5 Hrun scenario2_acyclic
           scenario2_single_parent Hobs Hdepth).
Defined.

(** X16. The pages of [initialPages] are fetched first, in the order in which
    their ids first appear there; pages known only as children come after. *)
Theorem listed_pages_fetched_first f fuel init calls roots st :
  buildPageTree f fuel init = (calls, Returned (roots, st)) →
  map page_id (first_seen init) `prefix_of` calls.
Proof.
  intros (st' & Hinv & _ & _ & <- & _ & -> & _)%build_spec.
  rewrite <-summary_ids, (inv_nodes _ _ _ Hinv).
  destruct (first_seen_app init (concat (map (kids f) (map node_id (heap st)))))
    as (extra & -> & _).
  rewrite map_app. by apply prefix_app_r.
Qed.

Lemma listed_pages_fetched_first_witness :
  scenario4 = ([1; 2; 3], Returned ((result_of scenario4).1, (result_of scenario4).2)) ∧
  map page_id (first_seen [A1; B2]) `prefix_of` [1; 2; 3].
Proof.
  assert (scenario4 = ([1; 2; 3], Returned ((result_of scenario4).1, (result_of scenario4).2)))
    as Hrun by (vm_compute; reflexivity).
  split; [exact Hrun|].
  exact (listed_pages_fetched_first _ _ _ _ _ _ Hrun).
Defined.
